(** * ChopChop: signature model, loader and match engine

    A shallow embedding of [internal/signatures.go] and the properties
    of its loader ([ParseSignatures]), its match engine ([Check.Match])
    and its reporting entry point ([PrintSignatures]).

    Modelling conventions:
    - a Go [string] is a [string] (a sequence of 8-bit characters), a
      [[]byte] is a [list byte], a slice is a [list] (ranging over a nil
      slice and over an empty one is the same), a Go [int] is a [Z];
    - a pointer that may be [nil] is an [option];
    - a Go result [(v, err)] is a pair whose second component is an
      [option error], [None] standing for the [nil] error;
    - a [map[string][]string] is a [gmap string (list string)];
    - a loop body that may [return] is a value of type [flow]. *)

From Stdlib Require Import ZArith Ascii String.
From Stdlib.Strings Require Import Byte.
From stdpp Require Import base gmap strings list.

Local Open Scope Z_scope.

(** ** The Go standard library functions the file calls *)

(** [bytes.HasPrefix]. *)
Fixpoint bytes_HasPrefix (s prefix : list byte) {struct prefix} : bool :=
  match prefix, s with
  | [], _ => true
  | _ :: _, [] => false
  | p :: prefix', x :: s' => Byte.eqb x p && bytes_HasPrefix s' prefix'
  end.

(** [bytes.Index]: the index of the first instance of [sep] in [s], or
    [-1] when there is none. *)
Fixpoint bytes_Index (s sep : list byte) : Z :=
  if bytes_HasPrefix s sep then 0
  else match s with
       | [] => -1
       | _ :: s' =>
           let i := bytes_Index s' sep in
           if (i =? -1)%Z then -1 else i + 1
       end.

(** [bytes.Contains(b, subslice)] is [Index(b, subslice) != -1]. *)
Definition bytes_Contains (b subslice : list byte) : bool :=
  negb (bytes_Index b subslice =? -1)%Z.

(** [strings.HasPrefix]. *)
Fixpoint strings_HasPrefix (s prefix : string) {struct prefix} : bool :=
  match prefix, s with
  | EmptyString, _ => true
  | String _ _, EmptyString => false
  | String p prefix', String x s' => Ascii.eqb x p && strings_HasPrefix s' prefix'
  end.

(** [strings.Index]. *)
Fixpoint strings_Index (s substr : string) : Z :=
  if strings_HasPrefix s substr then 0
  else match s with
       | EmptyString => -1
       | String _ s' =>
           let i := strings_Index s' substr in
           if (i =? -1)%Z then -1 else i + 1
       end.

(** [strings.Contains(s, substr)] is [Index(s, substr) >= 0]. *)
Definition strings_Contains (s substr : string) : bool :=
  (0 <=? strings_Index s substr)%Z.

(** [strings.Count(s, sep)] for a separator of one byte, the only way
    the file calls it ([strings.Count(header, ":")]): the number of
    occurrences of that byte. *)
Fixpoint strings_Count (s : string) (sep : ascii) : nat :=
  match s with
  | EmptyString => 0%nat
  | String c s' => ((if Ascii.eqb c sep then 1 else 0) + strings_Count s' sep)%nat
  end.

(** [strings.Split(s, sep)] for a separator of one byte
    ([strings.Split(header, ":")]): the pieces of [s] between the
    occurrences of the separator, which are [Count(s, sep) + 1] many. *)
Fixpoint strings_Split (s : string) (sep : ascii) : list string :=
  match s with
  | EmptyString => [EmptyString]
  | String c s' =>
      if Ascii.eqb c sep then EmptyString :: strings_Split s' sep
      else match strings_Split s' sep with
           | [] => [String c EmptyString]
           | piece :: pieces => String c piece :: pieces
           end
  end.

(** The conversion [[]byte(s)]. *)
Definition bytes_of_string (s : string) : list byte := list_byte_of_string s.

(** ** Data model *)

(** [type Check struct]. *)
Record Check : Type := mkCheck {
  MustMatchOne : list string;
  MustMatchAll : list string;
  MustNotMatch : list string;
  StatusCode : option Z;
  Name : string;
  Remediation : string;
  Severity : string;
  Description : string;
  Headers : list string;
  NoHeaders : list string
}.

(** [type Plugin struct]. *)
Record Plugin : Type := mkPlugin {
  Endpoints : list string;
  Checks : list Check;
  FollowRedirects : bool
}.

(** [type Signatures struct]. *)
Record Signatures : Type := mkSignatures {
  Plugins : list Plugin
}.

(** Modelled from the spec: the type [HTTPResponse], declared in another
    file of the package. The spec (section 3) gives it a [statusCode]
    (integer), a [body] (byte sequence) and a [header] (mapping from
    header name to an ordered sequence of raw values); the field names
    are the ones [Match] reads. *)
Module HTTPResponse.
Record t : Type := mk {
  StatusCode : Z;
  Body : list byte;
  Header : gmap string (list string)
}.
End HTTPResponse.

(** Modelled from the spec: the error [ErrNilParameter], declared in
    another file of the package; it carries the name of the nil
    parameter (the spec's [NilParameterError{"check"}]).

    The other constructors are the error values this file declares,
    and [ErrOther], which stands for every error made outside this file
    (by [io], by the YAML decoder, by the severity classifier),
    identified by its message. *)
Inductive error : Type :=
| ErrNilParameter (Name : string)
| ErrInvalidHeaderFormat (Header : string)
| ErrCheckInvalidField (Check Field : string)
| ErrInvalidPathSignaturesFile
| ErrBothEndpointSet
| ErrOther (msg : string).

(** ** Control flow of a loop body that may return *)

Inductive flow (R : Type) : Type :=
| Fallthrough
| Return (r : R).
Arguments Fallthrough {R}.
Arguments Return {R} r.

(** [s1 ;; s2]: run [s1]; unless it returned, run [s2]. *)
Definition seq_flow {R : Type} (s1 s2 : flow R) : flow R :=
  match s1 with
  | Return r => Return r
  | Fallthrough => s2
  end.
Declare Scope flow_scope.
Delimit Scope flow_scope with flow.
Bind Scope flow_scope with flow.
Notation "s1 ;; s2" := (seq_flow s1 s2)
  (at level 100, s2 at level 200, right associativity) : flow_scope.
Local Open Scope flow_scope.

(** The function's value: what a statement list returned, or the final
    [return] reached by falling through. *)
Definition run_flow {R : Type} (s : flow R) (final : R) : R :=
  match s with
  | Return r => r
  | Fallthrough => final
  end.

(** ** [Check.Match] *)

Module MatchLoops.

(** [for _, match := range check.MustMatchAll] (lines 73-77). *)
Fixpoint range_MustMatchAll (Body : list byte) (l : list string)
  : flow (bool * option error) :=
  match l with
  | [] => Fallthrough
  | match_ :: l' =>
      if negb (bytes_Contains Body (bytes_of_string match_))
      then Return (false, None)
      else range_MustMatchAll Body l'
  end.

(** [for _, match := range check.MustMatchOne] (lines 81-86): the
    value of [found] after the loop, from its value before. *)
Fixpoint range_MustMatchOne (Body : list byte) (l : list string)
  (found : bool) : bool :=
  match l with
  | [] => found
  | match_ :: l' =>
      if bytes_Contains Body (bytes_of_string match_)
      then true
      else range_MustMatchOne Body l' found
  end.

(** [for _, match := range check.MustNotMatch] (lines 92-96). *)
Fixpoint range_MustNotMatch (Body : list byte) (l : list string)
  : flow (bool * option error) :=
  match l with
  | [] => Fallthrough
  | match_ :: l' =>
      if bytes_Contains Body (bytes_of_string match_)
      then Return (false, None)
      else range_MustNotMatch Body l'
  end.

(** [for _, respHeaderValue := range respHVal] (lines 115-120 and
    137-142): the value of the flag after the loop. *)
Fixpoint range_values (values : list string) (hVal : string)
  (found : bool) : bool :=
  match values with
  | [] => found
  | respHeaderValue :: values' =>
      if strings_Contains respHeaderValue hVal
      then true
      else range_values values' hVal found
  end.

(** The body of the loop over [check.Headers] (lines 100-123). *)
Definition Headers_body (Header : gmap string (list string))
  (header : string) : flow (bool * option error) :=
  match strings_Split header ":" with
  | [hKey; hVal] =>
      match Header !! hKey with
      | None => Return (false, None)
      | Some respHVal =>
          if negb (range_values respHVal hVal false)
          then Return (false, None)
          else Fallthrough
      end
  | _ => Return (false, Some (ErrInvalidHeaderFormat header))
  end.

(** [for _, header := range check.Headers] (lines 99-124). *)
Fixpoint range_Headers (Header : gmap string (list string))
  (l : list string) : flow (bool * option error) :=
  match l with
  | [] => Fallthrough
  | header :: l' => Headers_body Header header ;; range_Headers Header l'
  end.

(** The body of the loop over [check.NoHeaders] (lines 128-146). *)
Definition NoHeaders_body (Header : gmap string (list string))
  (header : string) : flow (bool * option error) :=
  match strings_Split header ":" with
  | [nhKey; nhVal] =>
      match Header !! nhKey with
      | Some respHeaderValues =>
          if range_values respHeaderValues nhVal false
          then Return (false, None)
          else Fallthrough
      | None => Fallthrough
      end
  | _ => Return (false, Some (ErrInvalidHeaderFormat header))
  end.

(** [for _, header := range check.NoHeaders] (lines 127-147). *)
Fixpoint range_NoHeaders (Header : gmap string (list string))
  (l : list string) : flow (bool * option error) :=
  match l with
  | [] => Fallthrough
  | header :: l' => NoHeaders_body Header header ;; range_NoHeaders Header l'
  end.

End MatchLoops.
Import MatchLoops.

(** Lines 79-150 of [Match]: the statements from the [MustMatchOne]
    stage to the final [return true, nil]. *)
Definition Match_from_MustMatchOne (check : Check) (resp : HTTPResponse.t)
  : bool * option error :=
  let found := range_MustMatchOne (HTTPResponse.Body resp) (MustMatchOne check) false in
  run_flow
    ((if negb found then Return (false, None) else Fallthrough) ;;
     range_MustNotMatch (HTTPResponse.Body resp) (MustNotMatch check) ;;
     range_Headers (HTTPResponse.Header resp) (Headers check) ;;
     range_NoHeaders (HTTPResponse.Header resp) (NoHeaders check))
    (true, None).

(** Lines 72-150 of [Match]: the statements after the status gate. *)
Definition Match_from_MustMatchAll (check : Check) (resp : HTTPResponse.t)
  : bool * option error :=
  run_flow
    (range_MustMatchAll (HTTPResponse.Body resp) (MustMatchAll check))
    (Match_from_MustMatchOne check resp).

(** [func (check *Check) Match(resp *HTTPResponse) (bool, error)]. *)
Definition Match (check : option Check) (resp : option HTTPResponse.t)
  : bool * option error :=
  match check with
  | None => (false, Some (ErrNilParameter "check"))
  | Some check =>
      match StatusCode check with
      | None => (false, Some (ErrNilParameter "check.StatusCode"))
      | Some want =>
          match resp with
          | None => (false, Some (ErrNilParameter "resp"))
          | Some resp =>
              if negb (HTTPResponse.StatusCode resp =? want)%Z
              then (false, None)
              else Match_from_MustMatchAll check resp
          end
      end
  end.

(** ** [ParseSignatures] *)

(** An [io.Reader], seen through the only thing the loader does with
    it: [io.ReadAll(r)]. *)
Record Reader : Type := mkReader {
  io_ReadAll : list byte * option error
}.

Section Loader.

(** The severity classifier [StringToSeverity] is declared in another
    file of the package and the YAML decoder in another module: the
    loader is modelled over any classifier and any decoder. *)
Variable SeverityLevel : Type.
Variable StringToSeverity : string -> SeverityLevel * option error.
Variable yaml_Unmarshal : list byte -> Signatures * option error.

(** [for _, header := range check.Headers] (lines 223-227). *)
Fixpoint range_check_Headers (l : list string)
  : flow (option Signatures * option error) :=
  match l with
  | [] => Fallthrough
  | header :: l' =>
      if negb (strings_Count header ":" =? 1)%nat
      then Return (None, Some (ErrInvalidHeaderFormat header))
      else range_check_Headers l'
  end.

(** The body of the loop over [plugin.Checks] (lines 207-227). *)
Definition Checks_body (check : Check)
  : flow (option Signatures * option error) :=
  (if String.eqb "" (Description check)
   then Return (None, Some (ErrCheckInvalidField (Name check) "description"))
   else if String.eqb "" (Remediation check)
   then Return (None, Some (ErrCheckInvalidField (Name check) "remediation"))
   else if String.eqb "" (Severity check)
   then Return (None, Some (ErrCheckInvalidField (Name check) "severity"))
   else Fallthrough) ;;
  (match snd (StringToSeverity (Severity check)) with
   | Some err => Return (None, Some err)
   | None => Fallthrough
   end) ;;
  range_check_Headers (Headers check).

(** [for _, check := range plugin.Checks] (lines 206-228). *)
Fixpoint range_Checks (l : list Check)
  : flow (option Signatures * option error) :=
  match l with
  | [] => Fallthrough
  | check :: l' => Checks_body check ;; range_Checks l'
  end.

(** [for _, plugin := range sign.Plugins] (lines 204-229). *)
Fixpoint range_Plugins (l : list Plugin)
  : flow (option Signatures * option error) :=
  match l with
  | [] => Fallthrough
  | plugin :: l' => range_Checks (Checks plugin) ;; range_Plugins l'
  end.

(** [func ParseSignatures(r io.Reader)], which returns a [*Signatures]
    and an [error]. *)
Definition ParseSignatures (r : Reader) : option Signatures * option error :=
  let '(signData, err) := io_ReadAll r in
  match err with
  | Some err => (None, Some err)
  | None =>
      let '(sign, err) := yaml_Unmarshal signData in
      match err with
      | Some err => (None, Some err)
      | None => run_flow (range_Plugins (Plugins sign)) (Some sign, None)
      end
  end.

End Loader.

(** ** [PrintSignatures] *)

(** The part of [go-pretty]'s [table.Writer] that the reporting entry
    point drives: a row is a sequence of cells, and the writer collects
    header rows, body rows and footer rows until [Render]. *)
Module table.

Inductive Cell : Type :=
| CellString (s : string)
| CellStrings (l : list string)
| CellInt (n : Z).

Definition Row : Type := list Cell.

Record Writer : Type := mkWriter {
  Header : list Row;
  Rows : list Row;
  Footer : list Row
}.

Definition NewWriter : Writer := mkWriter [] [] [].

Definition AppendHeader (t : Writer) (row : Row) : Writer :=
  mkWriter (Header t ++ [row]) (Rows t) (Footer t).

Definition AppendRow (t : Writer) (row : Row) : Writer :=
  mkWriter (Header t) (Rows t ++ [row]) (Footer t).

Definition AppendFooter (t : Writer) (row : Row) : Writer :=
  mkWriter (Header t) (Rows t) (Footer t ++ [row]).

End table.

(** A Go [int] is 64 bits wide: the value an [int] holds after an
    arithmetic result [z]. *)
Definition int_wrap (z : Z) : Z := (z + 2 ^ 63) mod 2 ^ 64 - 2 ^ 63.

(** The body of the loop over [plugin.Checks] (lines 242-245), on the
    state [(t, cpt)]. *)
Definition print_Checks_body (sevStr : string) (plugin : Plugin)
  (check : Check) (st : table.Writer * Z) : table.Writer * Z :=
  let '(t, cpt) := st in
  if String.eqb sevStr (Severity check)
  then (table.AppendRow t
          [table.CellStrings (Endpoints plugin); table.CellString (Name check);
           table.CellString (Severity check); table.CellString (Description check)],
        int_wrap (cpt + 1))
  else (t, cpt).

(** [for _, check := range plugin.Checks] (lines 241-246). *)
Fixpoint print_range_Checks (sevStr : string) (plugin : Plugin)
  (l : list Check) (st : table.Writer * Z) : table.Writer * Z :=
  match l with
  | [] => st
  | check :: l' =>
      print_range_Checks sevStr plugin l' (print_Checks_body sevStr plugin check st)
  end.

(** [for _, plugin := range sign.Plugins] (lines 240-247). *)
Fixpoint print_range_Plugins (sevStr : string) (l : list Plugin)
  (st : table.Writer * Z) : table.Writer * Z :=
  match l with
  | [] => st
  | plugin :: l' =>
      print_range_Plugins sevStr l' (print_range_Checks sevStr plugin (Checks plugin) st)
  end.

(** [func PrintSignatures(sign *Signatures, sevStr string, w io.Writer)]:
    the table rendered to [w], or [None] when [sign] is nil and reading
    [sign.Plugins] panics. *)
Definition PrintSignatures (sign : option Signatures) (sevStr : string)
  : option table.Writer :=
  let cpt := 0 in
  let t := table.NewWriter in
  let t := table.AppendHeader t
             [table.CellString "Endpoint"; table.CellString "Check Name";
              table.CellString "Severity"; table.CellString "Description"] in
  match sign with
  | None => None
  | Some sign =>
      let '(t, cpt) := print_range_Plugins sevStr (Plugins sign) (t, cpt) in
      let t := table.AppendFooter t
                 [table.CellString ""; table.CellString "";
                  table.CellString "Total Checks"; table.CellInt cpt] in
      Some t
  end.

(** ** What the claims speak about *)

(** [sub] is a byte-substring of [b]. *)
Definition byte_substring (sub b : list byte) : Prop :=
  ∃ l r, b = l ++ sub ++ r.

(** [sub] is a substring of [s]. *)
Definition substring (sub s : string) : Prop :=
  ∃ l r, s = l +:+ sub +:+ r.

(** The header entry [h] reads [KEY:VALUE]. *)
Definition entry (h KEY VALUE : string) : Prop :=
  h = KEY +:+ ":" +:+ VALUE.

(** The header entry [h] contains exactly one [':'] separator. *)
Definition one_separator (h : string) : Prop :=
  strings_Count h ":" = 1%nat.

(** Key [KEY] is present in the header map with at least one value
    containing [VALUE] as a substring. *)
Definition header_present (Header : gmap string (list string))
  (KEY VALUE : string) : Prop :=
  ∃ values, Header !! KEY = Some values ∧ ∃ v, v ∈ values ∧ substring VALUE v.

(** The header entry [h], read as [KEY:VALUE], has its key present in
    the header map with at least one value containing [VALUE]. *)
Definition entry_holds (Header : gmap string (list string)) (h : string) : Prop :=
  ∃ KEY VALUE, entry h KEY VALUE ∧ header_present Header KEY VALUE.

(** The six stages of the match engine (spec, section 4.3). *)
Record six_stages (check : Check) (resp : HTTPResponse.t) : Prop := {
  stage_status :
    StatusCode check = Some (HTTPResponse.StatusCode resp);
  stage_all :
    ∀ m, m ∈ MustMatchAll check →
         byte_substring (bytes_of_string m) (HTTPResponse.Body resp);
  stage_one :
    ∃ m, m ∈ MustMatchOne check ∧
         byte_substring (bytes_of_string m) (HTTPResponse.Body resp);
  stage_not :
    ∀ m, m ∈ MustNotMatch check →
         ¬ byte_substring (bytes_of_string m) (HTTPResponse.Body resp);
  stage_headers :
    ∀ h, h ∈ Headers check → entry_holds (HTTPResponse.Header resp) h;
  stage_noHeaders :
    ∀ h, h ∈ NoHeaders check → ¬ entry_holds (HTTPResponse.Header resp) h
}.

(** The checks of a document, in document order: plugins in order, the
    checks of each plugin in order. *)
Definition document_checks (sign : Signatures) : list Check :=
  concat (map Checks (Plugins sign)).

Section LoaderSpec.

Variable SeverityLevel : Type.
Variable StringToSeverity : string → SeverityLevel * option error.
Variable yaml_Unmarshal : list byte → Signatures * option error.

(** The reader yields a document that deserializes to [sign]. *)
Definition deserializes (r : Reader) (sign : Signatures) : Prop :=
  ∃ signData, io_ReadAll r = (signData, None) ∧
              yaml_Unmarshal signData = (sign, None).

(** The metadata of a check is complete and its severity is a known
    label. *)
Definition valid_metadata (check : Check) : Prop :=
  Description check ≠ "" ∧ Remediation check ≠ "" ∧ Severity check ≠ "" ∧
  snd (StringToSeverity (Severity check)) = None.

(** A check passes the validation of the loader. *)
Definition valid_check (check : Check) : Prop :=
  valid_metadata check ∧ ∀ h, h ∈ Headers check → one_separator h.

End LoaderSpec.

(** The response passes the status gate and the three body stages of
    the check. *)
Definition reaches_header_stages (check : Check) (resp : HTTPResponse.t) : Prop :=
  StatusCode check = Some (HTTPResponse.StatusCode resp) ∧
  (∀ m, m ∈ MustMatchAll check →
        byte_substring (bytes_of_string m) (HTTPResponse.Body resp)) ∧
  (∃ m, m ∈ MustMatchOne check ∧
        byte_substring (bytes_of_string m) (HTTPResponse.Body resp)) ∧
  (∀ m, m ∈ MustNotMatch check →
        ¬ byte_substring (bytes_of_string m) (HTTPResponse.Body resp)).

(** Evaluation reaches the malformed entry [h]: either [h] is in
    [Headers], after entries that are well formed and hold, or every
    [Headers] entry is well formed and holds and [h] is in [NoHeaders],
    after entries that are well formed and do not hold. *)
Definition reaches_entry (check : Check) (resp : HTTPResponse.t) (h : string) : Prop :=
  (∃ pre post, Headers check = pre ++ h :: post ∧
     ∀ x, x ∈ pre → one_separator x ∧ entry_holds (HTTPResponse.Header resp) x) ∨
  ((∀ x, x ∈ Headers check →
         one_separator x ∧ entry_holds (HTTPResponse.Header resp) x) ∧
   ∃ pre post, NoHeaders check = pre ++ h :: post ∧
     ∀ x, x ∈ pre → one_separator x ∧ ¬ entry_holds (HTTPResponse.Header resp) x).

(** The checks of a set with their plugins, in document order. *)
Definition document_order (sign : Signatures) : list (Plugin * Check) :=
  concat (map (λ plugin, map (pair plugin) (Checks plugin)) (Plugins sign)).

(** The severity of the check is string-equal to the filter. *)
Definition has_severity (sevStr : string) (pc : Plugin * Check) : Prop :=
  sevStr = Severity pc.2.

#[global] Instance has_severity_dec (sevStr : string) (pc : Plugin * Check)
  : Decision (has_severity sevStr pc) :=
  decide (sevStr = Severity pc.2).

(** The checks a filter selects, in document order. *)
Definition selected (sign : Signatures) (sevStr : string) : list (Plugin * Check) :=
  filter (has_severity sevStr) (document_order sign).

(** The row reported for a check of a plugin: endpoints, check name,
    severity, description. *)
Definition report_row (pc : Plugin * Check) : table.Row :=
  [table.CellStrings (Endpoints pc.1); table.CellString (Name pc.2);
   table.CellString (Severity pc.2); table.CellString (Description pc.2)].

(** The footer row reporting a total. *)
Definition total_row (n : Z) : table.Row :=
  [table.CellString ""; table.CellString "";
   table.CellString "Total Checks"; table.CellInt n].

(** ** Concrete data used by the examples *)

Definition emptyCheck : Check :=
  mkCheck [] [] [] None "" "" "" "" [] [].

(** The check of the end-to-end scenario (spec, section 8). *)
Definition scenarioCheck : Check :=
  mkCheck [] ["WordPress"] [] (Some 200) "" "r" "high" "d" ["X-Powered-By:PHP"] [].

(** The response of the end-to-end scenario, for a given body. *)
Definition scenarioResponse (body : list byte) : HTTPResponse.t :=
  HTTPResponse.mk 200 body {[ "X-Powered-By" := ["PHP/7.4"] ]}.

Definition scenarioBody : list byte :=
  bytes_of_string "...WordPress 5.0...".

(** A check of the scenario's shape that also names an alternative, a
    forbidden string and a forbidden header. *)
Definition fullCheck : Check :=
  mkCheck ["WordPress"; "Joomla"] ["WordPress"] ["Drupal"] (Some 200)
          "wp" "r" "high" "d" ["X-Powered-By:PHP"] ["Server:nginx"].

(** The scenario's check, with the string it looks for also listed in
    [MustMatchOne]. *)
Definition scenarioCheckOne : Check :=
  mkCheck ["WordPress"] ["WordPress"] [] (Some 200) "" "r" "high" "d"
          ["X-Powered-By:PHP"] [].

(** A check whose body rules hold on the scenario's response and whose
    header entry is malformed. *)
Definition malformedCheck : Check :=
  mkCheck ["WordPress"] ["WordPress"] [] (Some 200) "" "r" "high" "d" ["X-Foo"] [].

(** A check with no [MustMatchAll] string that matches the scenario's
    response. *)
Definition oneOnlyCheck : Check :=
  mkCheck ["WordPress"] [] [] (Some 200) "" "r" "high" "d" [] [].

(** A check that matches the scenario's response up to its header
    entries, the second of which is malformed. *)
Definition secondMalformedCheck : Check :=
  mkCheck ["WordPress"] [] [] (Some 200) "" "r" "high" "d"
          ["X-Powered-By:PHP"; "X-Foo"] [].

(** Modelled from the spec: the severity classifier [StringToSeverity],
    declared in another file of the package. The spec (section 4.2) has
    it map the labels critical, high, medium, low and informational to
    an ordered rank, and fail on any other label. *)
Definition exampleStringToSeverity (label : string) : nat * option error :=
  if String.eqb label "critical" then (4%nat, None)
  else if String.eqb label "high" then (3%nat, None)
  else if String.eqb label "medium" then (2%nat, None)
  else if String.eqb label "low" then (1%nat, None)
  else if String.eqb label "informational" then (0%nat, None)
  else (0%nat, Some (ErrOther "invalid severity")).

(** A decoder that reads every input as the document [sign]. *)
Definition decodeAs (sign : Signatures) (signData : list byte)
  : Signatures * option error :=
  (sign, None).

(** A reader that is read without error. *)
Definition exampleReader : Reader := mkReader ([], None).

(** A check with an empty severity. *)
Definition noSeverityCheck : Check :=
  mkCheck ["Joomla"] [] [] (Some 200) "c2" "r" "" "d" [] [].

(** A document whose third check, in the second plugin, has an empty
    severity, between checks that are valid. *)
Definition noSeverityDocument : Signatures :=
  mkSignatures
    [mkPlugin ["/"] [fullCheck; oneOnlyCheck] false;
     mkPlugin ["/a"; "/b"] [noSeverityCheck; fullCheck] true].

(** A document whose check has an empty description and a malformed
    [headers] entry. *)
Definition noDescriptionDocument : Signatures :=
  mkSignatures
    [mkPlugin ["/"]
       [mkCheck ["WordPress"] [] [] (Some 200) "c1" "r" "high" "" ["X-Foo"] []]
       false].

(** A document whose check is valid but for a malformed [no_headers]
    entry. *)
Definition malformedNoHeadersDocument : Signatures :=
  mkSignatures
    [mkPlugin ["/"]
       [mkCheck ["WordPress"] [] [] (Some 200) "c1" "r" "high" "d" [] ["X-Foo"]]
       false].

(** A document whose second check has a malformed [headers] entry. *)
Definition malformedHeadersDocument : Signatures :=
  mkSignatures [mkPlugin ["/"] [fullCheck; secondMalformedCheck] false].

(** A signature set with three checks of severity ["high"] around one of
    another severity. *)
Definition reportedSet : Signatures :=
  mkSignatures
    [mkPlugin ["/"] [fullCheck; noSeverityCheck] false;
     mkPlugin ["/a"; "/b"] [oneOnlyCheck; fullCheck] true].

(** ** The error messages *)

(** The double quote character. *)
Definition quote : ascii := "034"%char.

(** [func (e ErrInvalidHeaderFormat) Error() string] (lines 48-50). *)
Definition ErrInvalidHeaderFormat_Error (Header : string) : string :=
  "invalid header format: " +:+ Header +:+
  " should be " +:+ String quote ("KEY:VALUE" +:+ String quote "").

(** [func (e ErrCheckInvalidField) Error() string] (lines 160-162). *)
Definition ErrCheckInvalidField_Error (Check Field : string) : string :=
  "missing or empty " +:+ Field +:+ " in " +:+ Check +:+ " plugin checks.".

(** ** Further notions and data *)

(** Two lists have the same members, whatever their order and their
    repetitions. *)
Definition same_members (l1 l2 : list string) : Prop :=
  ∀ x, x ∈ l1 ↔ x ∈ l2.

(** The fields of a check that the loader reads. *)
Definition loader_view (check : Check)
  : string * string * string * string * list string :=
  (Name check, Description check, Remediation check, Severity check,
   Headers check).

(** The title row of the report. *)
Definition title_row : table.Row :=
  [table.CellString "Endpoint"; table.CellString "Check Name";
   table.CellString "Severity"; table.CellString "Description"].

(** [fullCheck] with its lists reordered and repeated. *)
Definition shuffledCheck : Check :=
  mkCheck ["Joomla"; "WordPress"; "Joomla"] ["WordPress"; "WordPress"]
          ["Drupal"; "Drupal"] (Some 200) "other" "" "" ""
          ["X-Powered-By:PHP"; "X-Powered-By:PHP"] ["Server:nginx"].

(** A check that forbids the empty string. *)
Definition forbidsEmptyCheck : Check :=
  mkCheck ["WordPress"] [] [""] (Some 200) "" "r" "high" "d" [] [].

(** A document of three checks, and a document whose checks have the
    same names, metadata and [headers], grouped in other plugins, with
    other status codes, body rules and [no_headers] entries. *)
Definition threeChecksDocument : Signatures :=
  mkSignatures
    [mkPlugin ["/"] [fullCheck; oneOnlyCheck] false;
     mkPlugin ["/a"] [secondMalformedCheck] true].

(** A decoder that reads the empty input as the document [a] and every
    other input as the document [b]. *)
Definition decodeEither (a b : Signatures) (signData : list byte)
  : Signatures * option error :=
  match signData with
  | [] => (a, None)
  | _ :: _ => (b, None)
  end.

(** The check of [malformedNoHeadersDocument]. *)
Definition malformedNoHeadersCheck : Check :=
  mkCheck ["WordPress"] [] [] (Some 200) "c1" "r" "high" "d" [] ["X-Foo"].

Definition regroupedDocument : Signatures :=
  mkSignatures
    [mkPlugin [] [] true;
     mkPlugin ["/x"]
       [mkCheck [] [] [] None "wp" "r" "high" "d" ["X-Powered-By:PHP"] ["X-Foo"];
        mkCheck [] ["a"] ["b"] (Some 404) "" "r" "high" "d" [] ["a:b:c"];
        mkCheck [] [] [] None "" "r" "high" "d" ["X-Powered-By:PHP"; "X-Foo"] []]
       false].

(** Membership and inclusion of short concrete lists. *)
Ltac members := intros x; rewrite !elem_of_cons, !elem_of_nil; tauto.

(** ** The standard library functions meet their descriptions *)

Section GoLibrary.

Lemma bytes_HasPrefix_spec s p :
  bytes_HasPrefix s p = true ↔ ∃ r, s = p ++ r.
Proof.
  revert s. induction p as [|x p IH]; intros s; simpl.
  - split; [eauto | done].
  - destruct s as [|y s].
    + split; [done | intros [r Hr]; discriminate Hr].
    + rewrite andb_true_iff, IH. split.
      * intros [Hxy [r ->]]. apply byte_dec_bl in Hxy. subst. eauto.
      * intros [r Hr]. injection Hr as -> ->.
        split; [by apply byte_dec_lb | eauto].
Qed.

Lemma bytes_Index_ge s sep : -1 ≤ bytes_Index s sep.
Proof.
  induction s as [|x s IH]; simpl.
  - destruct (bytes_HasPrefix [] sep); lia.
  - destruct (bytes_HasPrefix (x :: s) sep); [lia|].
    destruct (Z.eqb_spec (bytes_Index s sep) (-1)); lia.
Qed.

Lemma bytes_Contains_spec b sub :
  bytes_Contains b sub = true ↔ byte_substring sub b.
Proof.
  unfold bytes_Contains, byte_substring.
  rewrite negb_true_iff, Z.eqb_neq.
  induction b as [|x b IH]; simpl.
  - destruct (bytes_HasPrefix [] sub) eqn:Hp.
    + apply bytes_HasPrefix_spec in Hp as [r Hr].
      split; [intros _; by exists [], r | done].
    + split; [done | intros (l & r & Hlr)].
      destruct l; [|discriminate Hlr]. simpl in Hlr.
      assert (bytes_HasPrefix [] sub = true) as Hp'
        by (apply bytes_HasPrefix_spec; eauto).
      congruence.
  - destruct (bytes_HasPrefix (x :: b) sub) eqn:Hp.
    + apply bytes_HasPrefix_spec in Hp as [r Hr].
      split; [intros _; by exists [], r | done].
    + pose proof (bytes_Index_ge b sub) as Hge.
      destruct (Z.eqb_spec (bytes_Index b sub) (-1)) as [Heq|Hne].
      * split; [done | intros (l & r & Hlr)].
        destruct l as [|y l]; simpl in Hlr.
        -- assert (bytes_HasPrefix (x :: b) sub = true) as Hp'
             by (apply bytes_HasPrefix_spec; eauto).
           congruence.
        -- injection Hlr as _ Hb. exfalso. apply IH; [eauto | done].
      * split; [intros _ | lia].
        destruct IH as [IH _]. destruct (IH Hne) as (l & r & ->).
        by exists (x :: l), r.
Qed.

Lemma strings_HasPrefix_spec s p :
  strings_HasPrefix s p = true ↔ ∃ r, s = p +:+ r.
Proof.
  revert s. induction p as [|x p IH]; intros s; simpl.
  - split; [eauto | done].
  - destruct s as [|y s].
    + split; [done | intros [r Hr]; discriminate Hr].
    + rewrite andb_true_iff, IH, Ascii.eqb_eq. split.
      * intros [-> [r ->]]. eauto.
      * intros [r Hr]. injection Hr as -> ->. eauto.
Qed.

Lemma strings_Index_ge s substr : -1 ≤ strings_Index s substr.
Proof.
  induction s as [|x s IH]; simpl.
  - destruct (strings_HasPrefix "" substr); lia.
  - destruct (strings_HasPrefix (String x s) substr); [lia|].
    destruct (Z.eqb_spec (strings_Index s substr) (-1)); lia.
Qed.

Lemma strings_Contains_spec s sub :
  strings_Contains s sub = true ↔ substring sub s.
Proof.
  unfold strings_Contains, substring. rewrite Z.leb_le.
  induction s as [|x s IH]; simpl.
  - destruct (strings_HasPrefix "" sub) eqn:Hp.
    + apply strings_HasPrefix_spec in Hp as [r Hr].
      split; [intros _; by exists "", r | done].
    + split; [lia | intros (l & r & Hlr)].
      destruct l; [|discriminate Hlr]. simpl in Hlr.
      assert (strings_HasPrefix "" sub = true) as Hp'
        by (apply strings_HasPrefix_spec; eauto).
      congruence.
  - destruct (strings_HasPrefix (String x s) sub) eqn:Hp.
    + apply strings_HasPrefix_spec in Hp as [r Hr].
      split; [intros _; by exists "", r | done].
    + pose proof (strings_Index_ge s sub) as Hge.
      destruct (Z.eqb_spec (strings_Index s sub) (-1)) as [Heq|Hne].
      * split; [lia | intros (l & r & Hlr)].
        destruct l as [|y l]; simpl in Hlr.
        -- assert (strings_HasPrefix (String x s) sub = true) as Hp'
             by (apply strings_HasPrefix_spec; eauto).
           congruence.
        -- injection Hlr as _ Hb.
           assert (0 ≤ strings_Index s sub) by (apply IH; eauto). lia.
      * split; [intros _ | lia].
        destruct IH as [IH _]. destruct IH as (l & r & ->); [lia|].
        by exists (String x l), r.
Qed.

Lemma strings_Count_app a b c :
  strings_Count (a +:+ b) c = (strings_Count a c + strings_Count b c)%nat.
Proof. induction a as [|x a IH]; simpl; [done | rewrite IH; lia]. Qed.

Lemma strings_Split_length s c :
  length (strings_Split s c) = S (strings_Count s c).
Proof.
  induction s as [|x s IH]; simpl; [done|].
  destruct (Ascii.eqb x c); simpl; [by rewrite IH|].
  destruct (strings_Split s c); simpl in *; lia.
Qed.

Lemma strings_Split_no_sep s c :
  strings_Count s c = 0%nat → strings_Split s c = [s].
Proof.
  induction s as [|x s IH]; simpl; [done|].
  destruct (Ascii.eqb x c); [done|]. intros Hs. by rewrite IH.
Qed.

Lemma strings_Split_app k v c :
  strings_Count k c = 0%nat →
  strings_Split (k +:+ String c v) c = k :: strings_Split v c.
Proof.
  induction k as [|x k IH]; simpl.
  - by rewrite Ascii.eqb_refl.
  - destruct (Ascii.eqb x c); [done|]. intros Hk. by rewrite IH.
Qed.

(** An entry with exactly one separator splits into its key and its
    value, whichever way it is read as [KEY:VALUE]. *)
Lemma strings_Split_entry h KEY VALUE :
  one_separator h → entry h KEY VALUE →
  strings_Split h ":" = [KEY; VALUE].
Proof.
  unfold one_separator, entry. intros Hone ->.
  change (KEY +:+ ":" +:+ VALUE) with (KEY +:+ String ":" VALUE) in *.
  rewrite strings_Count_app in Hone. simpl in Hone.
  rewrite strings_Split_app by lia.
  by rewrite strings_Split_no_sep by lia.
Qed.

(** An entry with exactly one separator reads [KEY:VALUE]. *)
Lemma one_separator_entry h :
  one_separator h → ∃ KEY VALUE, entry h KEY VALUE.
Proof.
  unfold one_separator, entry.
  induction h as [|x h IH]; simpl; [done|].
  destruct (Ascii.eqb_spec x ":") as [->|Hne].
  - intros _. by exists "", h.
  - intros Hone. destruct (IH Hone) as (K & V & ->).
    by exists (String x K), V.
Qed.

(** An entry that splits in two has exactly one separator. *)
Lemma strings_Split_two h :
  length (strings_Split h ":") = 2%nat ↔ one_separator h.
Proof. unfold one_separator. rewrite strings_Split_length. lia. Qed.

End GoLibrary.

(** ** The loops of [Match] *)

Section MatchStages.

Variable Body : list byte.
Variable Header : gmap string (list string).

Lemma range_MustMatchAll_spec l :
  (range_MustMatchAll Body l = Fallthrough ∧
   ∀ m, m ∈ l → byte_substring (bytes_of_string m) Body) ∨
  (range_MustMatchAll Body l = Return (false, None) ∧
   ¬ ∀ m, m ∈ l → byte_substring (bytes_of_string m) Body).
Proof.
  induction l as [|m l IH]; simpl.
  - left. split; [done | intros m Hm; by apply not_elem_of_nil in Hm].
  - destruct (bytes_Contains Body (bytes_of_string m)) eqn:Hc; simpl.
    + apply bytes_Contains_spec in Hc.
      destruct IH as [[-> Hall]|[-> Hnot]]; [left | right]; split; try done.
      * intros m' [->|Hm']%elem_of_cons; auto.
      * intros Hall. apply Hnot. intros m' Hm'. apply Hall. by right.
    + right. split; [done | intros Hall].
      assert (bytes_Contains Body (bytes_of_string m) = true) as Hc'
        by (apply bytes_Contains_spec, Hall; by left).
      congruence.
Qed.

Lemma range_MustMatchOne_spec l :
  range_MustMatchOne Body l false = true ↔
  ∃ m, m ∈ l ∧ byte_substring (bytes_of_string m) Body.
Proof.
  induction l as [|m l IH]; simpl.
  - split; [done | intros (m & Hm & _); by apply not_elem_of_nil in Hm].
  - destruct (bytes_Contains Body (bytes_of_string m)) eqn:Hc.
    + apply bytes_Contains_spec in Hc.
      split; [intros _; exists m; split; [by left | done] | done].
    + rewrite IH. split.
      * intros (m' & Hm' & Hsub). exists m'. split; [by right | done].
      * intros (m' & [->|Hm']%elem_of_cons & Hsub); [|eauto].
        apply bytes_Contains_spec in Hsub. congruence.
Qed.

Lemma range_MustNotMatch_spec l :
  (range_MustNotMatch Body l = Fallthrough ∧
   ∀ m, m ∈ l → ¬ byte_substring (bytes_of_string m) Body) ∨
  (range_MustNotMatch Body l = Return (false, None) ∧
   ¬ ∀ m, m ∈ l → ¬ byte_substring (bytes_of_string m) Body).
Proof.
  induction l as [|m l IH]; simpl.
  - left. split; [done | intros m Hm; by apply not_elem_of_nil in Hm].
  - destruct (bytes_Contains Body (bytes_of_string m)) eqn:Hc.
    + apply bytes_Contains_spec in Hc.
      right. split; [done | intros Hall]. apply (Hall m); [by left | done].
    + destruct IH as [[-> Hall]|[-> Hnot]]; [left | right]; split; try done.
      * intros m' [->|Hm']%elem_of_cons; [|auto].
        intros Hsub%bytes_Contains_spec. congruence.
      * intros Hall. apply Hnot. intros m' Hm'. apply Hall. by right.
Qed.

Lemma range_values_spec values VALUE :
  range_values values VALUE false = true ↔
  ∃ v, v ∈ values ∧ substring VALUE v.
Proof.
  induction values as [|v values IH]; simpl.
  - split; [done | intros (v & Hv & _); by apply not_elem_of_nil in Hv].
  - destruct (strings_Contains v VALUE) eqn:Hc.
    + apply strings_Contains_spec in Hc.
      split; [intros _; exists v; split; [by left | done] | done].
    + rewrite IH. split.
      * intros (v' & Hv' & Hsub). exists v'. split; [by right | done].
      * intros (v' & [->|Hv']%elem_of_cons & Hsub); [|eauto].
        apply strings_Contains_spec in Hsub. congruence.
Qed.

(** With exactly one separator, the split of an entry decides
    [entry_holds]. *)
Lemma entry_holds_split h KEY VALUE :
  strings_Split h ":" = [KEY; VALUE] → one_separator h →
  entry_holds Header h ↔
  ∃ values, Header !! KEY = Some values ∧
            range_values values VALUE false = true.
Proof.
  intros Hsplit Hone. unfold entry_holds, header_present. split.
  - intros (K & V & Hentry & values & Hlook & Hv).
    rewrite (strings_Split_entry h K V Hone Hentry) in Hsplit.
    injection Hsplit as -> ->.
    exists values. by rewrite range_values_spec.
  - intros (values & Hlook & Hv%range_values_spec).
    destruct (one_separator_entry h Hone) as (K & V & Hentry).
    rewrite (strings_Split_entry h K V Hone Hentry) in Hsplit.
    injection Hsplit as -> ->. eauto 10.
Qed.

Lemma one_separator_split h :
  one_separator h → ∃ KEY VALUE, strings_Split h ":" = [KEY; VALUE].
Proof.
  intros Hone. destruct (one_separator_entry h Hone) as (K & V & Hentry).
  exists K, V. by apply strings_Split_entry.
Qed.

Lemma Headers_body_spec h :
  one_separator h →
  (Headers_body Header h = Fallthrough ∧ entry_holds Header h) ∨
  (Headers_body Header h = Return (false, None) ∧ ¬ entry_holds Header h).
Proof.
  intros Hone. destruct (one_separator_split h Hone) as (K & V & Hsplit).
  rewrite (entry_holds_split h K V Hsplit Hone).
  unfold Headers_body. rewrite Hsplit.
  destruct (Header !! K) as [values|];
    [|right; split; [done | intros (vs & [=] & _)]].
  destruct (range_values values V false) eqn:Hr; simpl;
    [left | right]; split; try done; [eauto|].
  intros (vs & [= <-] & Hv). congruence.
Qed.

Lemma NoHeaders_body_spec h :
  one_separator h →
  (NoHeaders_body Header h = Fallthrough ∧ ¬ entry_holds Header h) ∨
  (NoHeaders_body Header h = Return (false, None) ∧ entry_holds Header h).
Proof.
  intros Hone. destruct (one_separator_split h Hone) as (K & V & Hsplit).
  rewrite (entry_holds_split h K V Hsplit Hone).
  unfold NoHeaders_body. rewrite Hsplit.
  destruct (Header !! K) as [values|];
    [|left; split; [done | intros (vs & [=] & _)]].
  destruct (range_values values V false) eqn:Hr; simpl;
    [right | left]; split; try done; [eauto|].
  intros (vs & [= <-] & Hv). congruence.
Qed.

Lemma range_Headers_spec l :
  (∀ h, h ∈ l → one_separator h) →
  (range_Headers Header l = Fallthrough ∧
   ∀ h, h ∈ l → entry_holds Header h) ∨
  (range_Headers Header l = Return (false, None) ∧
   ¬ ∀ h, h ∈ l → entry_holds Header h).
Proof.
  induction l as [|h l IH]; intros Hwf; simpl.
  - left. split; [done | intros h Hh; by apply not_elem_of_nil in Hh].
  - destruct (Headers_body_spec h) as [[-> Hh]|[-> Hh]];
      [apply Hwf; by left | | right; split; [done|]]; simpl.
    + destruct IH as [[-> Hall]|[-> Hnot]];
        [intros h' Hh'; apply Hwf; by right | left | right]; split; try done.
      * intros h' [->|Hh']%elem_of_cons; auto.
      * intros Hall. apply Hnot. intros h' Hh'. apply Hall. by right.
    + intros Hall. apply Hh, Hall. by left.
Qed.

Lemma range_NoHeaders_spec l :
  (∀ h, h ∈ l → one_separator h) →
  (range_NoHeaders Header l = Fallthrough ∧
   ∀ h, h ∈ l → ¬ entry_holds Header h) ∨
  (range_NoHeaders Header l = Return (false, None) ∧
   ¬ ∀ h, h ∈ l → ¬ entry_holds Header h).
Proof.
  induction l as [|h l IH]; intros Hwf; simpl.
  - left. split; [done | intros h Hh; by apply not_elem_of_nil in Hh].
  - destruct (NoHeaders_body_spec h) as [[-> Hh]|[-> Hh]];
      [apply Hwf; by left | | right; split; [done|]]; simpl.
    + destruct IH as [[-> Hall]|[-> Hnot]];
        [intros h' Hh'; apply Hwf; by right | left | right]; split; try done.
      * intros h' [->|Hh']%elem_of_cons; auto.
      * intros Hall. apply Hnot. intros h' Hh'. apply Hall. by right.
    + intros Hall. apply (Hall h); [by left | done].
Qed.

End MatchStages.

(** ** Properties of [Match] *)

(** For a well-formed check and a response, [Match] either matches and
    all six stages hold, or does not match, without error, and some
    stage fails. *)
Lemma Match_cases (check : Check) (resp : HTTPResponse.t) (want : Z) :
  StatusCode check = Some want →
  (∀ h, h ∈ Headers check → one_separator h) →
  (∀ h, h ∈ NoHeaders check → one_separator h) →
  (Match (Some check) (Some resp) = (true, None) ∧ six_stages check resp) ∨
  (Match (Some check) (Some resp) = (false, None) ∧ ¬ six_stages check resp).
Proof.
  intros Hsc HwfH HwfN. unfold Match. rewrite Hsc.
  destruct (Z.eqb_spec (HTTPResponse.StatusCode resp) want) as [<-|Hne]; simpl;
    [|right; split; [done | intros [Hst _ _ _ _ _]; congruence]].
  unfold Match_from_MustMatchAll.
  destruct (range_MustMatchAll_spec (HTTPResponse.Body resp) (MustMatchAll check))
    as [[-> Hall]|[-> Hall]]; simpl;
    [|right; split; [done | intros [_ H _ _ _ _]; auto]].
  unfold Match_from_MustMatchOne.
  pose proof (range_MustMatchOne_spec (HTTPResponse.Body resp) (MustMatchOne check)) as Hone.
  destruct (range_MustMatchOne _ _ false); simpl;
    [|right; split; [done | intros [_ _ H _ _ _]; apply Hone in H; done]].
  destruct (range_MustNotMatch_spec (HTTPResponse.Body resp) (MustNotMatch check))
    as [[-> Hnot]|[-> Hnot]]; simpl;
    [|right; split; [done | intros [_ _ _ H _ _]; auto]].
  destruct (range_Headers_spec (HTTPResponse.Header resp) (Headers check) HwfH)
    as [[-> Hhd]|[-> Hhd]]; simpl;
    [|right; split; [done | intros [_ _ _ _ H _]; auto]].
  destruct (range_NoHeaders_spec (HTTPResponse.Header resp) (NoHeaders check) HwfN)
    as [[-> Hnh]|[-> Hnh]]; simpl;
    [|right; split; [done | intros [_ _ _ _ _ H]; auto]].
  left. split; [done|]. split; try done. by apply Hone.
Qed.

(** C1: for a non-nil check with a non-nil status code whose headers and
    noHeaders entries each contain exactly one [':'], and a non-nil
    response, [Match] returns [(true, nil)] if and only if all six
    stages hold, and returns [(false, nil)] in every other case. *)
Theorem Match_true_iff_six_stages (check : Check) (resp : HTTPResponse.t) :
  is_Some (StatusCode check) →
  (∀ h, h ∈ Headers check → one_separator h) →
  (∀ h, h ∈ NoHeaders check → one_separator h) →
  (Match (Some check) (Some resp) = (true, None) ↔ six_stages check resp) ∧
  (¬ six_stages check resp → Match (Some check) (Some resp) = (false, None)).
Proof.
  intros [want Hsc] HwfH HwfN.
  destruct (Match_cases check resp want Hsc HwfH HwfN) as [[-> Hsix]|[-> Hsix]].
  - split; [done | intros Hnot; by destruct Hnot].
  - split; [split; [intros [=] | done] | done].
Qed.

Lemma Match_true_iff_six_stages_witness :
  is_Some (StatusCode fullCheck) ∧
  (∀ h, h ∈ Headers fullCheck → one_separator h) ∧
  (∀ h, h ∈ NoHeaders fullCheck → one_separator h) ∧
  (Match (Some fullCheck) (Some (scenarioResponse scenarioBody)) = (true, None) ↔
   six_stages fullCheck (scenarioResponse scenarioBody)) ∧
  (¬ six_stages fullCheck (scenarioResponse scenarioBody) →
   Match (Some fullCheck) (Some (scenarioResponse scenarioBody)) = (false, None)).
Proof.
  assert (is_Some (StatusCode fullCheck)) as H1 by (by eexists).
  assert (∀ h, h ∈ Headers fullCheck → one_separator h) as H2
    by (apply Forall_forall; repeat constructor).
  assert (∀ h, h ∈ NoHeaders fullCheck → one_separator h) as H3
    by (apply Forall_forall; repeat constructor).
  exact (conj H1 (conj H2 (conj H3
    (Match_true_iff_six_stages fullCheck (scenarioResponse scenarioBody) H1 H2 H3)))).
Defined.

(** The scenario's check does not match the scenario's response: its
    [MustMatchOne] list is empty. *)
Lemma scenario_does_not_match :
  byte_substring (bytes_of_string "WordPress") scenarioBody ∧
  Match (Some scenarioCheck) (Some (scenarioResponse scenarioBody)) = (false, None) ∧
  Match (Some scenarioCheck) (Some (scenarioResponse scenarioBody)) ≠ (true, None).
Proof.
  split; [by apply bytes_Contains_spec; vm_compute|].
  assert (Match (Some scenarioCheck) (Some (scenarioResponse scenarioBody))
          = (false, None)) as -> by (by vm_compute).
  split; [done | intros [=]].
Qed.

(** C2, amended: the scenario's check, evaluated against a response with
    status 200, a body containing ["WordPress"] and the header map
    [{"X-Powered-By": ["PHP/7.4"]}], returns [(false, nil)], its
    [MustMatchOne] list being empty; with ["WordPress"] also listed in
    [MustMatchOne] it returns [(true, nil)]. *)
Theorem scenario_Match (body : list byte) :
  byte_substring (bytes_of_string "WordPress") body →
  Match (Some scenarioCheck) (Some (scenarioResponse body)) = (false, None) ∧
  Match (Some scenarioCheckOne) (Some (scenarioResponse body)) = (true, None).
Proof.
  intros Hsub%bytes_Contains_spec.
  assert (range_Headers {[ "X-Powered-By" := ["PHP/7.4"] ]} ["X-Powered-By:PHP"]
          = Fallthrough) as Hhd by (by vm_compute).
  unfold Match, Match_from_MustMatchAll, Match_from_MustMatchOne,
    scenarioCheck, scenarioCheckOne, scenarioResponse.
  cbn [HTTPResponse.StatusCode HTTPResponse.Body HTTPResponse.Header
       StatusCode MustMatchAll MustMatchOne MustNotMatch Headers NoHeaders].
  rewrite Hhd. simpl. by rewrite Hsub.
Qed.

Lemma scenario_Match_witness :
  byte_substring (bytes_of_string "WordPress") scenarioBody ∧
  Match (Some scenarioCheck) (Some (scenarioResponse scenarioBody)) = (false, None) ∧
  Match (Some scenarioCheckOne) (Some (scenarioResponse scenarioBody)) = (true, None).
Proof.
  assert (byte_substring (bytes_of_string "WordPress") scenarioBody) as H
    by (apply bytes_Contains_spec; by vm_compute).
  exact (conj H (scenario_Match scenarioBody H)).
Defined.

(** C4: for a non-nil check with a non-nil status code and an empty
    [MustMatchOne] list, and a non-nil response that passes the status
    gate and whose body contains every [MustMatchAll] string, [Match]
    returns [(false, nil)], whatever the body and the other fields. *)
Theorem Match_empty_MustMatchOne (check : Check) (resp : HTTPResponse.t) :
  StatusCode check = Some (HTTPResponse.StatusCode resp) →
  MustMatchOne check = [] →
  (∀ m, m ∈ MustMatchAll check →
        byte_substring (bytes_of_string m) (HTTPResponse.Body resp)) →
  Match (Some check) (Some resp) = (false, None).
Proof.
  intros Hsc Hone Hall. unfold Match. rewrite Hsc, Z.eqb_refl; simpl.
  unfold Match_from_MustMatchAll.
  destruct (range_MustMatchAll_spec (HTTPResponse.Body resp) (MustMatchAll check))
    as [[-> _]|[-> _]]; simpl; [|done].
  unfold Match_from_MustMatchOne. by rewrite Hone.
Qed.

Lemma Match_empty_MustMatchOne_witness :
  StatusCode scenarioCheck = Some (HTTPResponse.StatusCode (scenarioResponse scenarioBody)) ∧
  MustMatchOne scenarioCheck = [] ∧
  (∀ m, m ∈ MustMatchAll scenarioCheck →
        byte_substring (bytes_of_string m)
          (HTTPResponse.Body (scenarioResponse scenarioBody))) ∧
  Match (Some scenarioCheck) (Some (scenarioResponse scenarioBody)) = (false, None).
Proof.
  assert (∀ m, m ∈ MustMatchAll scenarioCheck →
               byte_substring (bytes_of_string m)
                 (HTTPResponse.Body (scenarioResponse scenarioBody))) as H.
  { apply Forall_forall. repeat constructor.
    apply bytes_Contains_spec. by vm_compute. }
  exact (conj eq_refl (conj eq_refl (conj H
    (Match_empty_MustMatchOne scenarioCheck (scenarioResponse scenarioBody)
       eq_refl eq_refl H)))).
Defined.

(** C5: [Match] checks its nil preconditions in order: a nil check gives
    [NilParameterError{"check"}]; a non-nil check with a nil status code
    gives [NilParameterError{"check.StatusCode"}] whatever the response,
    nil or not; a non-nil check with a non-nil status code and a nil
    response gives [NilParameterError{"resp"}]. *)
Theorem Match_nil_parameters :
  (∀ resp, Match None resp = (false, Some (ErrNilParameter "check"))) ∧
  (∀ check resp, StatusCode check = None →
     Match (Some check) resp = (false, Some (ErrNilParameter "check.StatusCode"))) ∧
  (∀ check, is_Some (StatusCode check) →
     Match (Some check) None = (false, Some (ErrNilParameter "resp"))).
Proof.
  split; [done|]. split.
  - intros check resp Hsc. unfold Match. by rewrite Hsc.
  - intros check [want Hsc]. unfold Match. by rewrite Hsc.
Qed.

Lemma Match_nil_parameters_witness :
  Match None (Some (scenarioResponse scenarioBody))
    = (false, Some (ErrNilParameter "check")) ∧
  Match (Some emptyCheck) None
    = (false, Some (ErrNilParameter "check.StatusCode")) ∧
  Match (Some emptyCheck) (Some (scenarioResponse scenarioBody))
    = (false, Some (ErrNilParameter "check.StatusCode")) ∧
  Match (Some scenarioCheck) None = (false, Some (ErrNilParameter "resp")).
Proof.
  destruct Match_nil_parameters as (Hcheck & Hsc & Hresp).
  split; [apply Hcheck|].
  split; [by apply Hsc|].
  split; [by apply Hsc|].
  apply Hresp. by eexists.
Defined.

(** C7: for a non-nil check with a non-nil status code and a non-nil
    response whose status code differs from it, [Match] returns
    [(false, nil)], whatever the body rules and the header entries,
    malformed ones included. *)
Theorem Match_status_gate (check : Check) (resp : HTTPResponse.t) (want : Z) :
  StatusCode check = Some want →
  HTTPResponse.StatusCode resp ≠ want →
  Match (Some check) (Some resp) = (false, None).
Proof.
  intros Hsc Hne. unfold Match. rewrite Hsc.
  by destruct (Z.eqb_spec (HTTPResponse.StatusCode resp) want).
Qed.

Lemma Match_status_gate_witness :
  StatusCode malformedCheck = Some 200 ∧
  HTTPResponse.StatusCode (HTTPResponse.mk 404 scenarioBody ∅) ≠ 200 ∧
  Match (Some malformedCheck) (Some (HTTPResponse.mk 404 scenarioBody ∅))
    = (false, None).
Proof.
  assert (HTTPResponse.StatusCode (HTTPResponse.mk 404 scenarioBody ∅) ≠ 200)
    as H by (simpl; lia).
  exact (conj eq_refl (conj H
    (Match_status_gate malformedCheck (HTTPResponse.mk 404 scenarioBody ∅) 200
       eq_refl H))).
Defined.

(** C10: for a check with an empty [MustMatchAll] list, the loop over
    that list returns for no body, and for a response that passes the
    status gate the value of [Match] is the value of the statements from
    the [MustMatchOne] stage on. *)
Theorem Match_empty_MustMatchAll (check : Check) :
  MustMatchAll check = [] →
  (∀ Body, range_MustMatchAll Body (MustMatchAll check) = Fallthrough) ∧
  (∀ resp, StatusCode check = Some (HTTPResponse.StatusCode resp) →
     Match (Some check) (Some resp) = Match_from_MustMatchOne check resp).
Proof.
  intros Hall. split; [intros Body; by rewrite Hall|].
  intros resp Hsc. unfold Match. rewrite Hsc, Z.eqb_refl; simpl.
  unfold Match_from_MustMatchAll. by rewrite Hall.
Qed.

Lemma Match_empty_MustMatchAll_witness :
  MustMatchAll oneOnlyCheck = [] ∧
  range_MustMatchAll scenarioBody (MustMatchAll oneOnlyCheck) = Fallthrough ∧
  Match (Some oneOnlyCheck) (Some (scenarioResponse scenarioBody))
    = Match_from_MustMatchOne oneOnlyCheck (scenarioResponse scenarioBody) ∧
  Match (Some oneOnlyCheck) (Some (scenarioResponse scenarioBody)) = (true, None).
Proof.
  destruct (Match_empty_MustMatchAll oneOnlyCheck eq_refl) as [Hloop Hrest].
  split; [done|]. split; [apply Hloop|]. split; [by apply Hrest|].
  by vm_compute.
Defined.

(** ** Malformed header entries at match time *)

Section MalformedEntries.

Variable Header : gmap string (list string).

Lemma Headers_body_malformed h :
  ¬ one_separator h →
  Headers_body Header h = Return (false, Some (ErrInvalidHeaderFormat h)).
Proof.
  intros Hmal. unfold Headers_body.
  pose proof (strings_Split_two h) as Htwo.
  destruct (strings_Split h ":") as [|a [|b [|c l]]]; try done.
  exfalso. by apply Hmal, Htwo.
Qed.

Lemma NoHeaders_body_malformed h :
  ¬ one_separator h →
  NoHeaders_body Header h = Return (false, Some (ErrInvalidHeaderFormat h)).
Proof.
  intros Hmal. unfold NoHeaders_body.
  pose proof (strings_Split_two h) as Htwo.
  destruct (strings_Split h ":") as [|a [|b [|c l]]]; try done.
  exfalso. by apply Hmal, Htwo.
Qed.

Lemma range_Headers_app l1 l2 :
  range_Headers Header (l1 ++ l2)
  = (range_Headers Header l1 ;; range_Headers Header l2).
Proof.
  induction l1 as [|h l1 IH]; simpl; [done|].
  destruct (Headers_body Header h); simpl; [apply IH | done].
Qed.

Lemma range_NoHeaders_app l1 l2 :
  range_NoHeaders Header (l1 ++ l2)
  = (range_NoHeaders Header l1 ;; range_NoHeaders Header l2).
Proof.
  induction l1 as [|h l1 IH]; simpl; [done|].
  destruct (NoHeaders_body Header h); simpl; [apply IH | done].
Qed.

Lemma range_Headers_pass l :
  (∀ x, x ∈ l → one_separator x ∧ entry_holds Header x) →
  range_Headers Header l = Fallthrough.
Proof.
  intros Hl.
  destruct (range_Headers_spec Header l) as [[-> _]|[_ Hnot]];
    [intros x Hx; by apply Hl | done |].
  exfalso. apply Hnot. intros x Hx. by apply Hl.
Qed.

Lemma range_NoHeaders_pass l :
  (∀ x, x ∈ l → one_separator x ∧ ¬ entry_holds Header x) →
  range_NoHeaders Header l = Fallthrough.
Proof.
  intros Hl.
  destruct (range_NoHeaders_spec Header l) as [[-> _]|[_ Hnot]];
    [intros x Hx; by apply Hl | done |].
  exfalso. apply Hnot. intros x Hx. by apply Hl.
Qed.

End MalformedEntries.

Lemma Match_at_header_stages (check : Check) (resp : HTTPResponse.t) :
  reaches_header_stages check resp →
  Match (Some check) (Some resp)
  = run_flow (range_Headers (HTTPResponse.Header resp) (Headers check) ;;
              range_NoHeaders (HTTPResponse.Header resp) (NoHeaders check))
             (true, None).
Proof.
  intros (Hsc & Hall & Hone & Hnot). unfold Match.
  rewrite Hsc, Z.eqb_refl; simpl. unfold Match_from_MustMatchAll.
  destruct (range_MustMatchAll_spec (HTTPResponse.Body resp) (MustMatchAll check))
    as [[-> _]|[_ Hno]]; [simpl | done].
  unfold Match_from_MustMatchOne.
  apply range_MustMatchOne_spec in Hone. rewrite Hone; simpl.
  by destruct (range_MustNotMatch_spec (HTTPResponse.Body resp) (MustNotMatch check))
    as [[-> _]|[_ Hno]].
Qed.

(** The claim of C6 fails on a malformed entry that evaluation never
    reaches: behind a nil status code, behind the status gate, behind a
    body stage that fails, behind an earlier entry that does not hold. *)
Lemma malformed_entry_not_reached :
  "X-Foo" ∈ Headers malformedCheck ∧ ¬ one_separator "X-Foo" ∧
  Match (Some (mkCheck ["WordPress"] [] [] None "" "r" "high" "d" ["X-Foo"] []))
        (Some (scenarioResponse scenarioBody))
    = (false, Some (ErrNilParameter "check.StatusCode")) ∧
  Match (Some malformedCheck) (Some (HTTPResponse.mk 404 scenarioBody ∅))
    = (false, None) ∧
  Match (Some (mkCheck ["Joomla"] [] [] (Some 200) "" "r" "high" "d" ["X-Foo"] []))
        (Some (scenarioResponse scenarioBody))
    = (false, None) ∧
  Match (Some (mkCheck ["WordPress"] [] [] (Some 200) "" "r" "high" "d"
                 ["Server:nginx"; "X-Foo"] []))
        (Some (scenarioResponse scenarioBody))
    = (false, None).
Proof.
  split; [by left|]. split; [by vm_compute|]. by vm_compute.
Qed.

(** C6, amended: for a non-nil check with a non-nil status code and a
    non-nil response that passes the status gate and the three body
    stages, if an entry [h] of [Headers] or [NoHeaders] does not contain
    exactly one [':'] and evaluation reaches it, then [Match] returns
    [(false, InvalidHeaderFormatError{h})]. *)
Theorem Match_malformed_entry (check : Check) (resp : HTTPResponse.t) (h : string) :
  reaches_header_stages check resp →
  reaches_entry check resp h →
  ¬ one_separator h →
  Match (Some check) (Some resp) = (false, Some (ErrInvalidHeaderFormat h)).
Proof.
  intros Hstages Hreach Hmal. rewrite (Match_at_header_stages _ _ Hstages).
  destruct Hreach as [(pre & post & -> & Hpre)|(Hhd & pre & post & -> & Hpre)].
  - rewrite range_Headers_app, (range_Headers_pass _ _ Hpre); simpl.
    by rewrite Headers_body_malformed.
  - rewrite (range_Headers_pass _ _ Hhd), range_NoHeaders_app,
      (range_NoHeaders_pass _ _ Hpre); simpl.
    by rewrite NoHeaders_body_malformed.
Qed.

Lemma Match_malformed_entry_witness :
  reaches_header_stages secondMalformedCheck (scenarioResponse scenarioBody) ∧
  reaches_entry secondMalformedCheck (scenarioResponse scenarioBody) "X-Foo" ∧
  ¬ one_separator "X-Foo" ∧
  Match (Some secondMalformedCheck) (Some (scenarioResponse scenarioBody))
    = (false, Some (ErrInvalidHeaderFormat "X-Foo")).
Proof.
  assert (byte_substring (bytes_of_string "WordPress") scenarioBody) as Hwp
    by (apply bytes_Contains_spec; by vm_compute).
  assert (reaches_header_stages secondMalformedCheck (scenarioResponse scenarioBody))
    as H1.
  { split; [done|]. split; [intros m Hm; by apply not_elem_of_nil in Hm|].
    split; [exists "WordPress"; split; [by left | done]|].
    intros m Hm; by apply not_elem_of_nil in Hm. }
  assert (reaches_entry secondMalformedCheck (scenarioResponse scenarioBody) "X-Foo")
    as H2.
  { left. exists ["X-Powered-By:PHP"], []. split; [done|].
    apply Forall_forall. repeat constructor.
    apply (entry_holds_split _ _ "X-Powered-By" "PHP"); [done | done |].
    exists ["PHP/7.4"]. split; by vm_compute. }
  assert (¬ one_separator "X-Foo") as H3 by (by vm_compute).
  exact (conj H1 (conj H2 (conj H3
    (Match_malformed_entry secondMalformedCheck (scenarioResponse scenarioBody)
       "X-Foo" H1 H2 H3)))).
Defined.

(** ** The loops of [ParseSignatures] *)

Section LoaderProperties.

Variable SeverityLevel : Type.
Variable StringToSeverity : string → SeverityLevel * option error.
Variable yaml_Unmarshal : list byte → Signatures * option error.

Local Abbreviation Checks_body := (Checks_body SeverityLevel StringToSeverity).
Local Abbreviation range_Checks := (range_Checks SeverityLevel StringToSeverity).
Local Abbreviation range_Plugins := (range_Plugins SeverityLevel StringToSeverity).
Local Abbreviation ParseSignatures :=
  (ParseSignatures SeverityLevel StringToSeverity yaml_Unmarshal).
Local Abbreviation deserializes := (deserializes yaml_Unmarshal).
Local Abbreviation valid_metadata :=
  (valid_metadata SeverityLevel StringToSeverity).
Local Abbreviation valid_check := (valid_check SeverityLevel StringToSeverity).

Lemma one_separator_eqb h :
  (strings_Count h ":" =? 1)%nat = true ↔ one_separator h.
Proof. apply Nat.eqb_eq. Qed.

Lemma range_check_Headers_pass l :
  (∀ h, h ∈ l → one_separator h) → range_check_Headers l = Fallthrough.
Proof.
  induction l as [|h l IH]; intros Hl; simpl; [done|].
  assert ((strings_Count h ":" =? 1)%nat = true) as ->
    by (apply one_separator_eqb, Hl; by left).
  simpl. apply IH. intros h' Hh'. apply Hl. by right.
Qed.

Lemma range_check_Headers_first pre h post :
  (∀ x, x ∈ pre → one_separator x) → ¬ one_separator h →
  range_check_Headers (pre ++ h :: post)
  = Return (None, Some (ErrInvalidHeaderFormat h)).
Proof.
  induction pre as [|x pre IH]; intros Hpre Hmal; simpl.
  - destruct (strings_Count h ":" =? 1)%nat eqn:Hc; [|done].
    by apply one_separator_eqb in Hc.
  - assert ((strings_Count x ":" =? 1)%nat = true) as ->
      by (apply one_separator_eqb, Hpre; by left).
    simpl. apply IH; [|done]. intros x' Hx'. apply Hpre. by right.
Qed.

Lemma Checks_body_pass check :
  valid_check check → Checks_body check = Fallthrough.
Proof.
  intros [(Hd & Hr & Hs & Hsev) Hhd]. unfold Checks_body.
  destruct (String.eqb_spec "" (Description check)); [done|].
  destruct (String.eqb_spec "" (Remediation check)); [done|].
  destruct (String.eqb_spec "" (Severity check)); [done|].
  rewrite Hsev; simpl. by apply range_check_Headers_pass.
Qed.

(** A check that does not pass the validation makes the loop body
    return an error and no signature set. *)
Lemma Checks_body_fail check :
  ¬ valid_check check → ∃ err, Checks_body check = Return (None, Some err).
Proof.
  intros Hinv. unfold Checks_body.
  destruct (String.eqb_spec "" (Description check)); [by eexists|].
  destruct (String.eqb_spec "" (Remediation check)); [by eexists|].
  destruct (String.eqb_spec "" (Severity check)); [by eexists|].
  destruct (snd (StringToSeverity (Severity check))) eqn:Hsev; [by eexists|].
  simpl. clear -Hinv n n0 n1 Hsev.
  assert (¬ ∀ h, h ∈ Headers check → one_separator h) as Hhd
    by (intros Hhd; apply Hinv; by repeat split).
  clear Hinv. induction (Headers check) as [|x l IH]; simpl.
  - exfalso. apply Hhd. intros h Hh. by apply not_elem_of_nil in Hh.
  - destruct (strings_Count x ":" =? 1)%nat eqn:Hc; simpl; [|by eexists].
    apply IH. intros Hl. apply Hhd.
    intros h [->|Hh]%elem_of_cons; [by apply one_separator_eqb | auto].
Qed.

(** Whatever the loop body returns is an error and no signature
    set. *)
Lemma Checks_body_return check res :
  Checks_body check = Return res → ∃ err, res = (None, Some err).
Proof.
  unfold Checks_body.
  destruct (String.eqb "" (Description check)); [intros [= <-]; eauto|].
  destruct (String.eqb "" (Remediation check)); [intros [= <-]; eauto|].
  destruct (String.eqb "" (Severity check)); [intros [= <-]; eauto|].
  destruct (snd (StringToSeverity (Severity check))); [intros [= <-]; eauto|].
  simpl. induction (Headers check) as [|x l IH]; simpl; [done|].
  destruct (strings_Count x ":" =? 1)%nat; simpl; [done | intros [= <-]; eauto].
Qed.

Lemma range_Checks_app l1 l2 :
  range_Checks (l1 ++ l2) = (range_Checks l1 ;; range_Checks l2).
Proof.
  induction l1 as [|c l1 IH]; simpl; [done|].
  destruct (Checks_body c); simpl; [apply IH | done].
Qed.

(** The nested loops run over the checks in document order. *)
Lemma range_Plugins_document sign :
  range_Plugins (Plugins sign) = range_Checks (document_checks sign).
Proof.
  unfold document_checks.
  induction (Plugins sign) as [|p ps IH]; simpl; [done|].
  by rewrite range_Checks_app, IH.
Qed.

Lemma range_Checks_pass l :
  (∀ c, c ∈ l → valid_check c) → range_Checks l = Fallthrough.
Proof.
  induction l as [|c l IH]; intros Hl; simpl; [done|].
  rewrite Checks_body_pass by (apply Hl; by left). simpl.
  apply IH. intros c' Hc'. apply Hl. by right.
Qed.

(** The value of the loader on a document whose first checks pass the
    validation: the value the loop body returns on the next check. *)
Lemma ParseSignatures_first r sign pre check post res :
  deserializes r sign →
  document_checks sign = pre ++ check :: post →
  (∀ c, c ∈ pre → valid_check c) →
  Checks_body check = Return res →
  ParseSignatures r = res.
Proof.
  intros (signData & Hread & Hyaml) Hdoc Hpre Hbody.
  unfold ParseSignatures. rewrite Hread, Hyaml.
  rewrite range_Plugins_document, Hdoc, range_Checks_app.
  rewrite (range_Checks_pass pre Hpre). simpl. by rewrite Hbody.
Qed.

(** The loader returns a signature set only when every check passes
    the validation. *)
Lemma ParseSignatures_invalid r sign :
  deserializes r sign →
  (∃ c, c ∈ document_checks sign ∧ ¬ valid_check c) →
  ∃ err, ParseSignatures r = (None, Some err).
Proof.
  intros (signData & Hread & Hyaml) Hinv.
  unfold ParseSignatures. rewrite Hread, Hyaml, range_Plugins_document.
  induction (document_checks sign) as [|c l IH]; simpl.
  - destruct Hinv as (c & Hc & _). by apply not_elem_of_nil in Hc.
  - destruct (Checks_body c) as [|res] eqn:Hbody; simpl.
    + apply IH. destruct Hinv as (c' & Hc' & Hinv).
      apply elem_of_cons in Hc' as [->|Hc']; [|eauto].
      destruct (Checks_body_fail c Hinv) as [err Herr]. congruence.
    + by apply Checks_body_return in Hbody.
Qed.

(** C8: the loader is fail-fast over the checks in document order:
    when the checks before [check] pass the validation, the first
    failure of [check] decides the result, whatever follows it. An
    empty severity, with a description and a remediation, gives the
    [MissingFieldError] naming ["severity"] and the name of the check,
    and no signature set. Within the check the order is description,
    remediation, severity, severity label, header format. *)
Theorem ParseSignatures_fail_fast r sign pre check post :
  deserializes r sign →
  document_checks sign = pre ++ check :: post →
  (∀ c, c ∈ pre → valid_check c) →
  (Description check = "" →
   ParseSignatures r
   = (None, Some (ErrCheckInvalidField (Name check) "description"))) ∧
  (Description check ≠ "" → Remediation check = "" →
   ParseSignatures r
   = (None, Some (ErrCheckInvalidField (Name check) "remediation"))) ∧
  (Description check ≠ "" → Remediation check ≠ "" → Severity check = "" →
   ParseSignatures r
   = (None, Some (ErrCheckInvalidField (Name check) "severity"))) ∧
  (∀ err, Description check ≠ "" → Remediation check ≠ "" →
     Severity check ≠ "" →
     snd (StringToSeverity (Severity check)) = Some err →
     ParseSignatures r = (None, Some err)) ∧
  (∀ hpre h hpost, valid_metadata check →
     Headers check = hpre ++ h :: hpost →
     (∀ x, x ∈ hpre → one_separator x) → ¬ one_separator h →
     ParseSignatures r = (None, Some (ErrInvalidHeaderFormat h))).
Proof.
  intros Hdes Hdoc Hpre.
  pose proof (ParseSignatures_first r sign pre check post) as Hfirst.
  repeat split.
  - intros Hd. apply Hfirst; try done.
    unfold Checks_body. by rewrite Hd.
  - intros Hd Hr. apply Hfirst; try done. unfold Checks_body.
    destruct (String.eqb_spec "" (Description check)); [done|].
    by rewrite Hr.
  - intros Hd Hr Hs. apply Hfirst; try done. unfold Checks_body.
    destruct (String.eqb_spec "" (Description check)); [done|].
    destruct (String.eqb_spec "" (Remediation check)); [done|].
    by rewrite Hs.
  - intros err Hd Hr Hs Hsev. apply Hfirst; try done. unfold Checks_body.
    destruct (String.eqb_spec "" (Description check)); [done|].
    destruct (String.eqb_spec "" (Remediation check)); [done|].
    destruct (String.eqb_spec "" (Severity check)); [done|].
    by rewrite Hsev.
  - intros hpre h hpost (Hd & Hr & Hs & Hsev) Hhd Hhpre Hmal.
    apply Hfirst; try done. unfold Checks_body.
    destruct (String.eqb_spec "" (Description check)); [done|].
    destruct (String.eqb_spec "" (Remediation check)); [done|].
    destruct (String.eqb_spec "" (Severity check)); [done|].
    rewrite Hsev, Hhd; simpl. by apply range_check_Headers_first.
Qed.

(** C3, amended: for a document that deserializes successfully, if a
    check has a string without exactly one [':'] in its [headers]
    list, the loader returns an error and no signature set; the error
    is the [InvalidHeaderFormatError] of the first such string of the
    first such check when the metadata of that check and of every
    check before it is valid. *)
Theorem ParseSignatures_malformed_header r sign :
  deserializes r sign →
  (∃ c h, c ∈ document_checks sign ∧ h ∈ Headers c ∧ ¬ one_separator h) →
  (∃ err, ParseSignatures r = (None, Some err)) ∧
  (∀ pre check post hpre h hpost,
     document_checks sign = pre ++ check :: post →
     (∀ c, c ∈ pre → valid_check c) →
     valid_metadata check →
     Headers check = hpre ++ h :: hpost →
     (∀ x, x ∈ hpre → one_separator x) → ¬ one_separator h →
     ParseSignatures r = (None, Some (ErrInvalidHeaderFormat h))).
Proof.
  intros Hdes (c & h & Hc & Hh & Hmal). split.
  - apply (ParseSignatures_invalid r sign Hdes).
    exists c. split; [done|]. intros [_ Hhd]. by apply Hmal, Hhd.
  - intros pre check post hpre h' hpost Hdoc Hpre (Hd & Hr & Hs & Hsev)
      Hhd Hhpre Hmal'.
    apply (ParseSignatures_first r sign pre check post); try done.
    unfold Checks_body.
    destruct (String.eqb_spec "" (Description check)); [done|].
    destruct (String.eqb_spec "" (Remediation check)); [done|].
    destruct (String.eqb_spec "" (Severity check)); [done|].
    rewrite Hsev, Hhd; simpl. by apply range_check_Headers_first.
Qed.

End LoaderProperties.

(** ** The loader on concrete documents *)

Lemma fullCheck_valid : valid_check nat exampleStringToSeverity fullCheck.
Proof.
  split; [by repeat split|]. apply Forall_forall. repeat constructor.
Qed.

Lemma oneOnlyCheck_valid : valid_check nat exampleStringToSeverity oneOnlyCheck.
Proof.
  split; [by repeat split|]. apply Forall_forall. repeat constructor.
Qed.

Lemma ParseSignatures_fail_fast_witness :
  deserializes (decodeAs noSeverityDocument) exampleReader noSeverityDocument ∧
  document_checks noSeverityDocument
    = [fullCheck; oneOnlyCheck] ++ noSeverityCheck :: [fullCheck] ∧
  (∀ c, c ∈ [fullCheck; oneOnlyCheck] → valid_check nat exampleStringToSeverity c) ∧
  ParseSignatures nat exampleStringToSeverity (decodeAs noSeverityDocument)
    exampleReader
    = (None, Some (ErrCheckInvalidField "c2" "severity")).
Proof.
  assert (deserializes (decodeAs noSeverityDocument) exampleReader
            noSeverityDocument) as H1 by (by exists []).
  assert (∀ c, c ∈ [fullCheck; oneOnlyCheck] →
               valid_check nat exampleStringToSeverity c) as H3.
  { apply Forall_forall.
    constructor; [apply fullCheck_valid|].
    constructor; [apply oneOnlyCheck_valid | constructor]. }
  split; [done|]. split; [done|]. split; [done|].
  destruct (ParseSignatures_fail_fast nat exampleStringToSeverity
              (decodeAs noSeverityDocument) exampleReader noSeverityDocument
              [fullCheck; oneOnlyCheck] noSeverityCheck [fullCheck]
              H1 eq_refl H3) as (_ & _ & Hseverity & _).
  by apply Hseverity.
Defined.

(** The claim of C3 fails on a document whose check fails an earlier
    validation, and on a document whose malformed entry is in
    [no_headers], which the loader returns. *)
Lemma malformed_header_other_results :
  ¬ one_separator "X-Foo" ∧
  ParseSignatures nat exampleStringToSeverity (decodeAs noDescriptionDocument)
    exampleReader
    = (None, Some (ErrCheckInvalidField "c1" "description")) ∧
  ParseSignatures nat exampleStringToSeverity
    (decodeAs malformedNoHeadersDocument) exampleReader
    = (Some malformedNoHeadersDocument, None).
Proof. split; [by vm_compute|]. by vm_compute. Qed.

Lemma ParseSignatures_malformed_header_witness :
  deserializes (decodeAs malformedHeadersDocument) exampleReader
    malformedHeadersDocument ∧
  (∃ c h, c ∈ document_checks malformedHeadersDocument ∧ h ∈ Headers c ∧
          ¬ one_separator h) ∧
  ParseSignatures nat exampleStringToSeverity
    (decodeAs malformedHeadersDocument) exampleReader
    = (None, Some (ErrInvalidHeaderFormat "X-Foo")).
Proof.
  assert (deserializes (decodeAs malformedHeadersDocument) exampleReader
            malformedHeadersDocument) as H1 by (by exists []).
  assert (∃ c h, c ∈ document_checks malformedHeadersDocument ∧ h ∈ Headers c ∧
                 ¬ one_separator h) as H2.
  { exists secondMalformedCheck, "X-Foo".
    split; [right; by left|]. split; [right; by left | by vm_compute]. }
  split; [done|]. split; [done|].
  destruct (ParseSignatures_malformed_header nat exampleStringToSeverity
              (decodeAs malformedHeadersDocument) exampleReader
              malformedHeadersDocument H1 H2) as [_ Hfirst].
  assert (∀ c, c ∈ [fullCheck] → valid_check nat exampleStringToSeverity c) as H3
    by (apply Forall_forall; constructor; [apply fullCheck_valid | constructor]).
  assert (valid_metadata nat exampleStringToSeverity secondMalformedCheck) as H4
    by (by repeat split).
  assert (∀ x, x ∈ ["X-Powered-By:PHP"] → one_separator x) as H5
    by (apply Forall_forall; repeat constructor).
  assert (¬ one_separator "X-Foo") as H6 by (by vm_compute).
  exact (Hfirst [fullCheck] secondMalformedCheck [] ["X-Powered-By:PHP"] "X-Foo" []
           eq_refl H3 H4 eq_refl H5 H6).
Defined.

(** ** The loops of [PrintSignatures] *)

Section Reporting.

Variable sevStr : string.

Lemma int_wrap_small z : - 2 ^ 63 ≤ z < 2 ^ 63 → int_wrap z = z.
Proof. intros Hz. unfold int_wrap. rewrite Z.mod_small; lia. Qed.

Lemma print_range_Checks_spec plugin l t cpt :
  let sel := filter (has_severity sevStr) (map (pair plugin) l) in
  0 ≤ cpt → cpt + Z.of_nat (length sel) < 2 ^ 63 →
  print_range_Checks sevStr plugin l (t, cpt)
  = (table.mkWriter (table.Header t) (table.Rows t ++ map report_row sel)
       (table.Footer t),
     cpt + Z.of_nat (length sel)).
Proof.
  revert t cpt. induction l as [|check l IH]; intros t cpt sel H0 Hlt; subst sel.
  - simpl. rewrite app_nil_r, Z.add_0_r. by destruct t.
  - cbn [map print_range_Checks print_Checks_body] in *.
    destruct (decide (has_severity sevStr (plugin, check))) as [Hd|Hd].
    + rewrite filter_cons_True in Hlt |- * by done.
      assert (String.eqb sevStr (Severity check) = true) as ->
        by (by apply String.eqb_eq).
      cbn [length map] in *.
      rewrite int_wrap_small by lia. rewrite IH by (cbn; lia).
      cbn [table.Header table.Rows table.Footer table.AppendRow].
      rewrite <- app_assoc. cbn [app report_row fst snd]. f_equal. lia.
    + rewrite filter_cons_False in Hlt |- * by done.
      assert (String.eqb sevStr (Severity check) = false) as ->
        by (by apply String.eqb_neq).
      by rewrite IH.
Qed.

Lemma print_range_Plugins_spec l t cpt :
  let sel := filter (has_severity sevStr)
               (concat (map (λ plugin, map (pair plugin) (Checks plugin)) l)) in
  0 ≤ cpt → cpt + Z.of_nat (length sel) < 2 ^ 63 →
  print_range_Plugins sevStr l (t, cpt)
  = (table.mkWriter (table.Header t) (table.Rows t ++ map report_row sel)
       (table.Footer t),
     cpt + Z.of_nat (length sel)).
Proof.
  revert t cpt. induction l as [|plugin l IH]; intros t cpt sel H0 Hlt; subst sel.
  - simpl. rewrite app_nil_r, Z.add_0_r. by destruct t.
  - simpl in *. rewrite filter_app, length_app, Nat2Z.inj_add in *.
    rewrite print_range_Checks_spec by lia. rewrite IH by lia. simpl.
    rewrite map_app, app_assoc. f_equal. lia.
Qed.

End Reporting.

(** ** Properties of [PrintSignatures] *)

(** C9: filtering the checks of a signature set by a severity string, as
    the reporting entry point does, reports exactly the checks whose
    severity is string-equal to the filter, in document order, and the
    reported total is their number (a number that fits a Go [int]). *)
Theorem PrintSignatures_selected (sign : Signatures) (sevStr : string) :
  Z.of_nat (length (selected sign sevStr)) < 2 ^ 63 →
  (∀ pc, pc ∈ selected sign sevStr ↔
         pc ∈ document_order sign ∧ sevStr = Severity pc.2) ∧
  sublist (selected sign sevStr) (document_order sign) ∧
  ∃ t, PrintSignatures (Some sign) sevStr = Some t ∧
       table.Rows t = map report_row (selected sign sevStr) ∧
       table.Footer t = [total_row (Z.of_nat (length (selected sign sevStr)))].
Proof.
  intros Hlt. split; [|split].
  - intros pc. unfold selected. rewrite list_elem_of_filter.
    unfold has_severity. tauto.
  - apply sublist_filter.
  - unfold PrintSignatures.
    rewrite print_range_Plugins_spec by (fold (document_order sign); fold (selected sign sevStr); lia).
    eexists. split; [done|]. by split.
Qed.

Lemma PrintSignatures_selected_witness :
  Z.of_nat (length (selected reportedSet "high")) < 2 ^ 63 ∧
  ∃ t, PrintSignatures (Some reportedSet) "high" = Some t ∧
       table.Rows t = map report_row (selected reportedSet "high") ∧
       table.Footer t = [total_row 3].
Proof.
  assert (Z.of_nat (length (selected reportedSet "high")) < 2 ^ 63) as H
    by (by vm_compute).
  split; [done|].
  destruct (PrintSignatures_selected reportedSet "high" H) as (_ & _ & Ht).
  exact Ht.
Defined.

(** ** Every outcome of [Match] *)

Section MatchOutcomes.

Variable Header : gmap string (list string).

(** The three ways the body of the [Headers] loop ends. *)
Lemma Headers_body_cases h :
  (one_separator h ∧ Headers_body Header h = Fallthrough) ∨
  (one_separator h ∧ Headers_body Header h = Return (false, None)) ∨
  (¬ one_separator h ∧
   Headers_body Header h = Return (false, Some (ErrInvalidHeaderFormat h))).
Proof.
  destruct (decide (one_separator h)) as [Hone|Hmal].
  - destruct (Headers_body_spec Header h Hone) as [[-> _]|[-> _]]; auto.
  - right. right. split; [done|]. by apply Headers_body_malformed.
Qed.

Lemma NoHeaders_body_cases h :
  (one_separator h ∧ NoHeaders_body Header h = Fallthrough) ∨
  (one_separator h ∧ NoHeaders_body Header h = Return (false, None)) ∨
  (¬ one_separator h ∧
   NoHeaders_body Header h = Return (false, Some (ErrInvalidHeaderFormat h))).
Proof.
  destruct (decide (one_separator h)) as [Hone|Hmal].
  - destruct (NoHeaders_body_spec Header h Hone) as [[-> _]|[-> _]]; auto.
  - right. right. split; [done|]. by apply NoHeaders_body_malformed.
Qed.

(** The three ways the [Headers] loop ends: it falls through, and then
    every entry is well formed; it reports a non-match; it reports one
    of its entries as malformed. *)
Lemma range_Headers_cases l :
  (range_Headers Header l = Fallthrough ∧ ∀ h, h ∈ l → one_separator h) ∨
  range_Headers Header l = Return (false, None) ∨
  (∃ h, h ∈ l ∧ ¬ one_separator h ∧
        range_Headers Header l
        = Return (false, Some (ErrInvalidHeaderFormat h))).
Proof.
  induction l as [|x l IH]; simpl.
  - left. split; [done | intros h Hh; by apply not_elem_of_nil in Hh].
  - destruct (Headers_body_cases x) as [[Hx ->]|[[Hx ->]|[Hx ->]]]; simpl.
    + destruct IH as [[-> Hl]|[->|(h & Hh & Hmal & ->)]].
      * left. split; [done|]. intros h [->|Hh]%elem_of_cons; auto.
      * by right; left.
      * right; right. exists h. split; [by right | done].
    + by right; left.
    + right; right. exists x. split; [by left | done].
Qed.

Lemma range_NoHeaders_cases l :
  (range_NoHeaders Header l = Fallthrough ∧ ∀ h, h ∈ l → one_separator h) ∨
  range_NoHeaders Header l = Return (false, None) ∨
  (∃ h, h ∈ l ∧ ¬ one_separator h ∧
        range_NoHeaders Header l
        = Return (false, Some (ErrInvalidHeaderFormat h))).
Proof.
  induction l as [|x l IH]; simpl.
  - left. split; [done | intros h Hh; by apply not_elem_of_nil in Hh].
  - destruct (NoHeaders_body_cases x) as [[Hx ->]|[[Hx ->]|[Hx ->]]]; simpl.
    + destruct IH as [[-> Hl]|[->|(h & Hh & Hmal & ->)]].
      * left. split; [done|]. intros h [->|Hh]%elem_of_cons; auto.
      * by right; left.
      * right; right. exists h. split; [by right | done].
    + by right; left.
    + right; right. exists x. split; [by left | done].
Qed.

End MatchOutcomes.

(** The three outcomes of [Match] on a check with a status code and a
    response: a match, and then every header entry is well formed; a
    non-match; a malformed entry of [Headers] or of [NoHeaders]. *)
Lemma Match_outcomes (check : Check) (resp : HTTPResponse.t) :
  is_Some (StatusCode check) →
  (Match (Some check) (Some resp) = (true, None) ∧
   (∀ h, h ∈ Headers check → one_separator h) ∧
   (∀ h, h ∈ NoHeaders check → one_separator h)) ∨
  Match (Some check) (Some resp) = (false, None) ∨
  (∃ h, (h ∈ Headers check ∨ h ∈ NoHeaders check) ∧ ¬ one_separator h ∧
        Match (Some check) (Some resp)
        = (false, Some (ErrInvalidHeaderFormat h))).
Proof.
  intros [want Hsc]. unfold Match. rewrite Hsc.
  destruct (HTTPResponse.StatusCode resp =? want)%Z; simpl; [|by right; left].
  unfold Match_from_MustMatchAll.
  destruct (range_MustMatchAll_spec (HTTPResponse.Body resp) (MustMatchAll check))
    as [[-> _]|[-> _]]; simpl; [|by right; left].
  unfold Match_from_MustMatchOne.
  destruct (range_MustMatchOne _ _ false); simpl; [|by right; left].
  destruct (range_MustNotMatch_spec (HTTPResponse.Body resp) (MustNotMatch check))
    as [[-> _]|[-> _]]; simpl; [|by right; left].
  destruct (range_Headers_cases (HTTPResponse.Header resp) (Headers check))
    as [[-> Hhd]|[->|(h & Hh & Hmal & ->)]]; simpl;
    [|by right; left|right; right; exists h; auto].
  destruct (range_NoHeaders_cases (HTTPResponse.Header resp) (NoHeaders check))
    as [[-> Hnh]|[->|(h & Hh & Hmal & ->)]]; simpl;
    [|by right; left|right; right; exists h; auto].
  by left.
Qed.

(** A match certifies the check and the response: there is no error,
    neither pointer is nil, every header entry is well formed, and the
    six stages hold. *)
Lemma Match_true_inv check resp e :
  Match check resp = (true, e) →
  e = None ∧
  ∃ c r, check = Some c ∧ resp = Some r ∧
         (∀ h, h ∈ Headers c → one_separator h) ∧
         (∀ h, h ∈ NoHeaders c → one_separator h) ∧
         six_stages c r.
Proof.
  destruct check as [c|]; [|intros [=]].
  destruct (StatusCode c) as [want|] eqn:Hsc;
    [|unfold Match; rewrite Hsc; intros [=]].
  destruct resp as [r|]; [|unfold Match; rewrite Hsc; intros [=]].
  destruct (Match_outcomes c r) as [(Hm & HwfH & HwfN)|[Hm|(h & _ & _ & Hm)]];
    [by eexists | | |]; rewrite Hm; intros [= <-]; try done.
  split; [done|]. exists c, r. repeat (split; [done|]).
  destruct (Match_cases c r want Hsc HwfH HwfN) as [[_ Hsix]|[Hf _]]; [done|].
  congruence.
Qed.

(** X1: whatever the check and the response, [Match] returns [true] only
    without an error, with both pointers non-nil, with every entry of
    [Headers] and [NoHeaders] well formed and with the six stages
    holding. *)
Theorem Match_true_certifies check resp e :
  Match check resp = (true, e) →
  e = None ∧
  ∃ c r, check = Some c ∧ resp = Some r ∧
         (∀ h, h ∈ Headers c → one_separator h) ∧
         (∀ h, h ∈ NoHeaders c → one_separator h) ∧
         six_stages c r.
Proof. apply Match_true_inv. Qed.

Lemma Match_true_certifies_witness :
  Match (Some fullCheck) (Some (scenarioResponse scenarioBody)) = (true, None) ∧
  six_stages fullCheck (scenarioResponse scenarioBody).
Proof.
  assert (Match (Some fullCheck) (Some (scenarioResponse scenarioBody))
          = (true, None)) as H by (by vm_compute).
  split; [done|].
  destruct (Match_true_certifies _ _ _ H) as (_ & c & r & [= <-] & [= <-] & _ & _ & Hsix).
  exact Hsix.
Defined.

(** Every error of [Match], with the value returned beside it. *)
Lemma Match_error_inv check resp b e :
  Match check resp = (b, Some e) →
  b = false ∧
  ((check = None ∧ e = ErrNilParameter "check") ∨
   (∃ c, check = Some c ∧ StatusCode c = None ∧
         e = ErrNilParameter "check.StatusCode") ∨
   (resp = None ∧ e = ErrNilParameter "resp") ∨
   (∃ c h, check = Some c ∧ (h ∈ Headers c ∨ h ∈ NoHeaders c) ∧
           ¬ one_separator h ∧ e = ErrInvalidHeaderFormat h)).
Proof.
  destruct check as [c|]; [|intros [= <- <-]; auto].
  destruct (StatusCode c) as [want|] eqn:Hsc;
    [|unfold Match; rewrite Hsc; intros [= <- <-]; split; [done|]; right; left; eauto].
  destruct resp as [r|];
    [|unfold Match; rewrite Hsc; intros [= <- <-]; auto 6].
  destruct (Match_outcomes c r) as [(Hm & _)|[Hm|(h & Hh & Hmal & Hm)]];
    [by eexists | | |]; rewrite Hm; intros [= <- <-].
  split; [done|]. do 3 right. eauto 8.
Qed.

(** X2: [Match] returns an error only with [false], and the error is one
    of four: the nil check, the nil status code, the nil response, or
    an entry of [Headers] or [NoHeaders] of the check that does not
    contain exactly one [':']. *)
Theorem Match_errors check resp b e :
  Match check resp = (b, Some e) →
  b = false ∧
  ((check = None ∧ e = ErrNilParameter "check") ∨
   (∃ c, check = Some c ∧ StatusCode c = None ∧
         e = ErrNilParameter "check.StatusCode") ∨
   (resp = None ∧ e = ErrNilParameter "resp") ∨
   (∃ c h, check = Some c ∧ (h ∈ Headers c ∨ h ∈ NoHeaders c) ∧
           ¬ one_separator h ∧ e = ErrInvalidHeaderFormat h)).
Proof. apply Match_error_inv. Qed.

Lemma Match_errors_witness :
  Match (Some secondMalformedCheck) (Some (scenarioResponse scenarioBody))
    = (false, Some (ErrInvalidHeaderFormat "X-Foo")) ∧
  false = false ∧
  ((Some secondMalformedCheck = None ∧
    ErrInvalidHeaderFormat "X-Foo" = ErrNilParameter "check") ∨
   (∃ c, Some secondMalformedCheck = Some c ∧ StatusCode c = None ∧
         ErrInvalidHeaderFormat "X-Foo" = ErrNilParameter "check.StatusCode") ∨
   (Some (scenarioResponse scenarioBody) = None ∧
    ErrInvalidHeaderFormat "X-Foo" = ErrNilParameter "resp") ∨
   (∃ c h, Some secondMalformedCheck = Some c ∧
           (h ∈ Headers c ∨ h ∈ NoHeaders c) ∧
           ¬ one_separator h ∧
           ErrInvalidHeaderFormat "X-Foo" = ErrInvalidHeaderFormat h)).
Proof.
  assert (Match (Some secondMalformedCheck) (Some (scenarioResponse scenarioBody))
          = (false, Some (ErrInvalidHeaderFormat "X-Foo"))) as H by (by vm_compute).
  exact (conj H (Match_errors _ _ _ _ H)).
Defined.

(** ** The rule lists of a check as sets *)

Section RuleSets.

Variable Body : list byte.
Variable Header : gmap string (list string).

Lemma range_MustMatchAll_members l1 l2 :
  same_members l1 l2 →
  range_MustMatchAll Body l1 = range_MustMatchAll Body l2.
Proof.
  intros Hsame.
  destruct (range_MustMatchAll_spec Body l1) as [[-> H1]|[-> H1]],
    (range_MustMatchAll_spec Body l2) as [[-> H2]|[-> H2]]; try done.
  - exfalso. apply H2. intros m Hm. by apply H1, Hsame.
  - exfalso. apply H1. intros m Hm. by apply H2, Hsame.
Qed.

Lemma range_MustMatchOne_members l1 l2 :
  same_members l1 l2 →
  range_MustMatchOne Body l1 false = range_MustMatchOne Body l2 false.
Proof.
  intros Hsame.
  pose proof (range_MustMatchOne_spec Body l1) as H1.
  pose proof (range_MustMatchOne_spec Body l2) as H2.
  destruct (range_MustMatchOne Body l1 false), (range_MustMatchOne Body l2 false);
    try done.
  - destruct H1 as [H1 _]. destruct H1 as (m & Hm & Hsub); [done|].
    symmetry. apply H2. exists m. split; [by apply Hsame | done].
  - destruct H2 as [H2 _]. destruct H2 as (m & Hm & Hsub); [done|].
    apply H1. exists m. split; [by apply Hsame | done].
Qed.

Lemma range_MustNotMatch_members l1 l2 :
  same_members l1 l2 →
  range_MustNotMatch Body l1 = range_MustNotMatch Body l2.
Proof.
  intros Hsame.
  destruct (range_MustNotMatch_spec Body l1) as [[-> H1]|[-> H1]],
    (range_MustNotMatch_spec Body l2) as [[-> H2]|[-> H2]]; try done.
  - exfalso. apply H2. intros m Hm. by apply H1, Hsame.
  - exfalso. apply H1. intros m Hm. by apply H2, Hsame.
Qed.

Lemma range_Headers_members l1 l2 :
  same_members l1 l2 → (∀ h, h ∈ l1 → one_separator h) →
  range_Headers Header l1 = range_Headers Header l2.
Proof.
  intros Hsame Hwf1.
  assert (∀ h, h ∈ l2 → one_separator h) as Hwf2
    by (intros h Hh; by apply Hwf1, Hsame).
  destruct (range_Headers_spec Header l1 Hwf1) as [[-> H1]|[-> H1]],
    (range_Headers_spec Header l2 Hwf2) as [[-> H2]|[-> H2]]; try done.
  - exfalso. apply H2. intros h Hh. by apply H1, Hsame.
  - exfalso. apply H1. intros h Hh. by apply H2, Hsame.
Qed.

Lemma range_NoHeaders_members l1 l2 :
  same_members l1 l2 → (∀ h, h ∈ l1 → one_separator h) →
  range_NoHeaders Header l1 = range_NoHeaders Header l2.
Proof.
  intros Hsame Hwf1.
  assert (∀ h, h ∈ l2 → one_separator h) as Hwf2
    by (intros h Hh; by apply Hwf1, Hsame).
  destruct (range_NoHeaders_spec Header l1 Hwf1) as [[-> H1]|[-> H1]],
    (range_NoHeaders_spec Header l2 Hwf2) as [[-> H2]|[-> H2]]; try done.
  - exfalso. apply H2. intros h Hh. by apply H1, Hsame.
  - exfalso. apply H1. intros h Hh. by apply H2, Hsame.
Qed.

End RuleSets.

(** X3: [Match] reads the three body rule lists as sets and reads no
    metadata: two checks with the same status code, the same [Headers]
    and [NoHeaders] lists and body rule lists with the same members give
    the same result on every response, malformed entries included. *)
Theorem Match_body_rules_as_sets (c1 c2 : Check) (resp : option HTTPResponse.t) :
  StatusCode c1 = StatusCode c2 →
  same_members (MustMatchAll c1) (MustMatchAll c2) →
  same_members (MustMatchOne c1) (MustMatchOne c2) →
  same_members (MustNotMatch c1) (MustNotMatch c2) →
  Headers c1 = Headers c2 →
  NoHeaders c1 = NoHeaders c2 →
  Match (Some c1) resp = Match (Some c2) resp.
Proof.
  intros Hsc Hall Hone Hnot Hhd Hnh. unfold Match. rewrite Hsc.
  destruct (StatusCode c2) as [want|]; [|done]. destruct resp as [r|]; [|done].
  destruct (negb _); [done|].
  unfold Match_from_MustMatchAll, Match_from_MustMatchOne.
  rewrite (range_MustMatchAll_members _ _ _ Hall),
    (range_MustMatchOne_members _ _ _ Hone),
    (range_MustNotMatch_members _ _ _ Hnot), Hhd, Hnh.
  done.
Qed.

(** X4: when the entries of [Headers] and [NoHeaders] each contain
    exactly one [':'], [Match] reads these two lists as sets too: the
    order and the repetitions of the five rule lists do not change the
    result. *)
Theorem Match_rules_as_sets (c1 c2 : Check) (resp : option HTTPResponse.t) :
  StatusCode c1 = StatusCode c2 →
  same_members (MustMatchAll c1) (MustMatchAll c2) →
  same_members (MustMatchOne c1) (MustMatchOne c2) →
  same_members (MustNotMatch c1) (MustNotMatch c2) →
  same_members (Headers c1) (Headers c2) →
  same_members (NoHeaders c1) (NoHeaders c2) →
  (∀ h, h ∈ Headers c1 → one_separator h) →
  (∀ h, h ∈ NoHeaders c1 → one_separator h) →
  Match (Some c1) resp = Match (Some c2) resp.
Proof.
  intros Hsc Hall Hone Hnot Hhd Hnh HwfH HwfN. unfold Match. rewrite Hsc.
  destruct (StatusCode c2) as [want|]; [|done]. destruct resp as [r|]; [|done].
  destruct (negb _); [done|].
  unfold Match_from_MustMatchAll, Match_from_MustMatchOne.
  rewrite (range_MustMatchAll_members _ _ _ Hall),
    (range_MustMatchOne_members _ _ _ Hone),
    (range_MustNotMatch_members _ _ _ Hnot),
    (range_Headers_members _ _ _ Hhd HwfH),
    (range_NoHeaders_members _ _ _ Hnh HwfN).
  done.
Qed.

Lemma Match_rules_as_sets_witness :
  Match (Some fullCheck) (Some (scenarioResponse scenarioBody))
  = Match (Some shuffledCheck) (Some (scenarioResponse scenarioBody)).
Proof.
  apply Match_rules_as_sets; try done; try (unfold same_members; simpl; members).
  - apply Forall_forall. repeat constructor.
  - apply Forall_forall. repeat constructor.
Defined.

(** [shuffledCheck] with the header lists of [malformedCheck]. *)
Lemma Match_body_rules_as_sets_witness :
  Match (Some malformedCheck) (Some (scenarioResponse scenarioBody))
  = Match (Some (mkCheck ["WordPress"; "WordPress"] ["WordPress"] [] (Some 200)
                   "n" "" "" "" ["X-Foo"] []))
          (Some (scenarioResponse scenarioBody)).
Proof.
  apply Match_body_rules_as_sets; try done; unfold same_members; simpl; members.
Defined.

(** X5: a check that lists the empty string in [MustNotMatch] matches no
    response: the empty string is a substring of every body. *)
Theorem Match_forbidden_empty_string (check : Check) (resp : option HTTPResponse.t) :
  "" ∈ MustNotMatch check →
  (Match (Some check) resp).1 = false.
Proof.
  intros Hin. destruct (Match (Some check) resp) as [[|] e] eqn:Hm; [|done].
  apply Match_true_inv in Hm as (_ & c & r & [= <-] & _ & _ & _ & Hsix).
  exfalso. apply (stage_not _ _ Hsix "" Hin).
  by exists [], (HTTPResponse.Body r).
Qed.

Lemma Match_forbidden_empty_string_witness :
  "" ∈ MustNotMatch forbidsEmptyCheck ∧
  (Match (Some forbidsEmptyCheck) (Some (scenarioResponse scenarioBody))).1 = false.
Proof.
  assert ("" ∈ MustNotMatch forbidsEmptyCheck) as H by (by left).
  exact (conj H (Match_forbidden_empty_string forbidsEmptyCheck _ H)).
Defined.

(** ** Header entries at the loader and at the match engine *)

Section HeaderEntries.

Variable Header : gmap string (list string).

Lemma range_check_Headers_one h :
  (one_separator h ∧ range_check_Headers [h] = Fallthrough) ∨
  (¬ one_separator h ∧
   range_check_Headers [h] = Return (None, Some (ErrInvalidHeaderFormat h))).
Proof.
  simpl. destruct (strings_Count h ":" =? 1)%nat eqn:Hc; simpl.
  - left. split; [by apply Nat.eqb_eq | done].
  - right. split; [by apply Nat.eqb_neq | done].
Qed.

(** X6: the loader and the match engine agree on what a malformed entry
    is, although the first counts the separators and the second splits
    on them: the loader rejects a header string exactly when [Match]
    rejects it as an entry of [Headers], and exactly when [Match]
    rejects it as an entry of [NoHeaders], whatever the response. *)
Theorem header_tests_agree (h : string) :
  (range_check_Headers [h] = Return (None, Some (ErrInvalidHeaderFormat h)) ↔
   Headers_body Header h = Return (false, Some (ErrInvalidHeaderFormat h))) ∧
  (range_check_Headers [h] = Return (None, Some (ErrInvalidHeaderFormat h)) ↔
   NoHeaders_body Header h = Return (false, Some (ErrInvalidHeaderFormat h))) ∧
  (range_check_Headers [h] = Fallthrough ↔ one_separator h).
Proof.
  destruct (range_check_Headers_one h) as [[Hone ->]|[Hmal ->]].
  - split; [|split].
    + destruct (Headers_body_spec Header h Hone) as [[-> _]|[-> _]];
        split; intros [=].
    + destruct (NoHeaders_body_spec Header h Hone) as [[-> _]|[-> _]];
        split; intros [=].
    + done.
  - rewrite Headers_body_malformed, NoHeaders_body_malformed by done.
    split; [done|]. split; [done|]. split; [intros [=] | done].
Qed.


Lemma strings_Contains_empty v : strings_Contains v "" = true.
Proof. apply strings_Contains_spec. by exists "", v. Qed.

Lemma range_values_empty values :
  range_values values "" false = true ↔ values ≠ [].
Proof.
  destruct values as [|v values]; simpl; [done|].
  by rewrite strings_Contains_empty.
Qed.

Lemma strings_Split_empty_value KEY :
  strings_Count KEY ":" = 0%nat →
  strings_Split (KEY +:+ ":") ":" = [KEY; ""].
Proof.
  intros Hkey. change (KEY +:+ ":") with (KEY +:+ String ":" "").
  by rewrite strings_Split_app.
Qed.

(** X8: an entry with an empty value, ["KEY:"], asks for the key alone,
    yet a key bound to no value does not count: in [Headers] the entry
    holds exactly when the key is bound to at least one value, and in
    [NoHeaders] it makes the check a non-match in exactly that case. *)
Theorem entry_with_empty_value (KEY : string) :
  strings_Count KEY ":" = 0%nat →
  (Headers_body Header (KEY +:+ ":") = Fallthrough ↔
   ∃ values, Header !! KEY = Some values ∧ values ≠ []) ∧
  (NoHeaders_body Header (KEY +:+ ":") = Return (false, None) ↔
   ∃ values, Header !! KEY = Some values ∧ values ≠ []) ∧
  (Headers_body Header (KEY +:+ ":") = Fallthrough ∨
   Headers_body Header (KEY +:+ ":") = Return (false, None)) ∧
  (NoHeaders_body Header (KEY +:+ ":") = Fallthrough ∨
   NoHeaders_body Header (KEY +:+ ":") = Return (false, None)).
Proof.
  intros Hkey. unfold Headers_body, NoHeaders_body.
  rewrite (strings_Split_empty_value KEY Hkey).
  destruct (Header !! KEY) as [values|].
  - pose proof (range_values_empty values) as Hv.
    destruct (range_values values "" false); simpl.
    + repeat split; try done; eauto.
      * intros _. exists values. split; [done | by apply Hv].
      * intros _. exists values. split; [done | by apply Hv].
    + repeat split; try done; eauto.
      * intros (vs & [= <-] & Hne). by apply Hv in Hne.
      * intros (vs & [= <-] & Hne). by apply Hv in Hne.
  - repeat split; try done; eauto; by intros (vs & [=] & _).
Qed.

End HeaderEntries.


Lemma entry_with_empty_value_witness :
  strings_Count "Server" ":" = 0%nat ∧
  (Headers_body {[ "Server" := [] ]} "Server:" = Return (false, None)) ∧
  (Headers_body {[ "Server" := [""] ]} "Server:" = Fallthrough).
Proof.
  split; [done|].
  destruct (entry_with_empty_value {[ "Server" := [] ]} "Server" eq_refl)
    as (_ & _ & _ & _).
  destruct (entry_with_empty_value {[ "Server" := [""] ]} "Server" eq_refl)
    as (Hholds & _ & _ & _).
  split; [by vm_compute|].
  apply Hholds. exists [""]. split; [by vm_compute | done].
Defined.

(** ** Every outcome of [ParseSignatures] *)

Section LoaderOutcomes.

Variable SeverityLevel : Type.
Variable StringToSeverity : string → SeverityLevel * option error.
Variable yaml_Unmarshal : list byte → Signatures * option error.

Local Abbreviation Checks_body := (Checks_body SeverityLevel StringToSeverity).
Local Abbreviation range_Checks := (range_Checks SeverityLevel StringToSeverity).
Local Abbreviation range_Plugins := (range_Plugins SeverityLevel StringToSeverity).
Local Abbreviation ParseSignatures :=
  (ParseSignatures SeverityLevel StringToSeverity yaml_Unmarshal).
Local Abbreviation deserializes := (deserializes yaml_Unmarshal).
Local Abbreviation valid_metadata :=
  (valid_metadata SeverityLevel StringToSeverity).
Local Abbreviation valid_check := (valid_check SeverityLevel StringToSeverity).

Lemma range_check_Headers_Fallthrough_inv l :
  range_check_Headers l = Fallthrough → ∀ h, h ∈ l → one_separator h.
Proof.
  induction l as [|x l IH]; simpl; [intros _ h Hh; by apply not_elem_of_nil in Hh|].
  destruct (strings_Count x ":" =? 1)%nat eqn:Hc; simpl; [|done].
  intros Hl h [->|Hh]%elem_of_cons; [by apply Nat.eqb_eq | by apply IH].
Qed.

Lemma Checks_body_Fallthrough_inv check :
  Checks_body check = Fallthrough → valid_check check.
Proof.
  unfold Checks_body.
  destruct (String.eqb_spec "" (Description check)); [done|].
  destruct (String.eqb_spec "" (Remediation check)); [done|].
  destruct (String.eqb_spec "" (Severity check)); [done|].
  destruct (snd (StringToSeverity (Severity check))) eqn:Hsev; [done|]. simpl.
  intros Hhd. pose proof (range_check_Headers_Fallthrough_inv _ Hhd) as Hwf.
  by repeat split.
Qed.

Lemma range_Checks_Fallthrough_inv l :
  range_Checks l = Fallthrough → ∀ c, c ∈ l → valid_check c.
Proof.
  induction l as [|x l IH]; simpl; [intros _ c Hc; by apply not_elem_of_nil in Hc|].
  destruct (Checks_body x) eqn:Hx; simpl; [|done].
  intros Hl c [->|Hc]%elem_of_cons;
    [by apply Checks_body_Fallthrough_inv | by apply IH].
Qed.

Lemma range_Checks_return l res :
  range_Checks l = Return res → ∃ err, res = (None, Some err).
Proof.
  induction l as [|x l IH]; simpl; [done|].
  destruct (Checks_body x) eqn:Hx; simpl; [done|].
  intros [= <-]. by apply Checks_body_return in Hx.
Qed.

Lemma ParseSignatures_ok_inv r sign :
  ParseSignatures r = (Some sign, None) →
  deserializes r sign ∧ ∀ c, c ∈ document_checks sign → valid_check c.
Proof.
  unfold ParseSignatures.
  destruct (io_ReadAll r) as [signData [err|]] eqn:Hread; [done|].
  destruct (yaml_Unmarshal signData) as [sign' [err|]] eqn:Hyaml; [done|].
  rewrite range_Plugins_document.
  destruct (range_Checks (document_checks sign')) as [|res] eqn:Hloop;
    simpl.
  - intros [= <-]. split; [by exists signData|].
    by apply range_Checks_Fallthrough_inv.
  - apply range_Checks_return in Hloop as [err ->]. done.
Qed.

Lemma ParseSignatures_ok r sign :
  deserializes r sign → (∀ c, c ∈ document_checks sign → valid_check c) →
  ParseSignatures r = (Some sign, None).
Proof.
  intros (signData & Hread & Hyaml) Hvalid.
  unfold ParseSignatures. rewrite Hread, Hyaml, range_Plugins_document.
  by rewrite range_Checks_pass.
Qed.

(** X9: the loader returns a signature set exactly when the reader is
    read and decoded without error and every check of the document, in
    every plugin, has a complete metadata, a known severity and only
    well-formed [headers] entries; the set returned is the decoded
    document, whole and unchanged. *)
Theorem ParseSignatures_ok_iff r sign :
  ParseSignatures r = (Some sign, None) ↔
  deserializes r sign ∧ ∀ c, c ∈ document_checks sign → valid_check c.
Proof.
  split; [apply ParseSignatures_ok_inv | intros [? ?]; by apply ParseSignatures_ok].
Qed.

(** X10: the loader returns either a signature set and no error, or an
    error and no signature set: never both, never neither. *)
Theorem ParseSignatures_set_or_error r :
  (∃ sign, ParseSignatures r = (Some sign, None)) ∨
  (∃ err, ParseSignatures r = (None, Some err)).
Proof.
  unfold ParseSignatures.
  destruct (io_ReadAll r) as [signData [err|]]; [eauto|].
  destruct (yaml_Unmarshal signData) as [sign [err|]]; [eauto|].
  rewrite range_Plugins_document.
  destruct (range_Checks (document_checks sign)) as [|res] eqn:Hloop;
    simpl; [eauto|].
  apply range_Checks_return in Hloop as [err ->]. eauto.
Qed.

Lemma Checks_body_view c1 c2 :
  loader_view c1 = loader_view c2 → Checks_body c1 = Checks_body c2.
Proof.
  unfold loader_view, Checks_body. intros [= Hn Hd Hr Hs Hh].
  by rewrite Hn, Hd, Hr, Hs, Hh.
Qed.

Lemma range_Checks_view l1 l2 :
  map loader_view l1 = map loader_view l2 → range_Checks l1 = range_Checks l2.
Proof.
  revert l2. induction l1 as [|c1 l1 IH]; intros [|c2 l2]; simpl; try done.
  intros Hmap.
  assert (loader_view c1 = loader_view c2) as Hc by congruence.
  assert (map loader_view l1 = map loader_view l2) as Hl by congruence.
  by rewrite (Checks_body_view c1 c2 Hc), (IH l2 Hl).
Qed.

(** X11: the loader reads of a document only the name, the description,
    the remediation, the severity and the [headers] list of its checks,
    in document order: two documents that agree on these get the same
    verdict, whatever their plugins, endpoints, status codes (nil
    included), body rules and [no_headers] entries. *)
Theorem ParseSignatures_reads_only r1 r2 sign1 sign2 :
  deserializes r1 sign1 → deserializes r2 sign2 →
  map loader_view (document_checks sign1)
  = map loader_view (document_checks sign2) →
  (ParseSignatures r1).2 = (ParseSignatures r2).2 ∧
  (is_Some (ParseSignatures r1).1 ↔ is_Some (ParseSignatures r2).1).
Proof.
  intros (d1 & Hread1 & Hyaml1) (d2 & Hread2 & Hyaml2) Hview.
  unfold ParseSignatures.
  rewrite Hread1, Hyaml1, Hread2, Hyaml2, !range_Plugins_document.
  rewrite (range_Checks_view _ _ Hview).
  destruct (range_Checks (document_checks sign2)) as [|res] eqn:Hloop;
    simpl; [split; [done | split; by eexists]|done].
Qed.

(** X12: a check of a set that the loader returned never makes [Match]
    fail on an entry of [Headers]: the only errors left are the nil
    status code, the nil response and a malformed entry of
    [NoHeaders], which the loader does not look at. *)
Theorem loaded_check_Match_errors r sign check resp b e :
  ParseSignatures r = (Some sign, None) →
  check ∈ document_checks sign →
  Match (Some check) resp = (b, Some e) →
  (StatusCode check = None ∧ e = ErrNilParameter "check.StatusCode") ∨
  (resp = None ∧ e = ErrNilParameter "resp") ∨
  (∃ h, h ∈ NoHeaders check ∧ ¬ one_separator h ∧
        e = ErrInvalidHeaderFormat h ∧
        ∃ a, resp = Some a ∧ range_Headers (HTTPResponse.Header a) (Headers check)
                         = Fallthrough).
Proof.
  intros [_ Hvalid]%ParseSignatures_ok_inv Hin Hm.
  destruct (Hvalid check Hin) as [_ Hwf].
  destruct (StatusCode check) as [want|] eqn:Hsc;
    [|unfold Match in Hm; rewrite Hsc in Hm; injection Hm as <- <-; auto].
  destruct resp as [a|];
    [|unfold Match in Hm; rewrite Hsc in Hm; injection Hm as <- <-; auto].
  right; right. revert Hm. unfold Match. rewrite Hsc.
  destruct (negb _); [done|]. unfold Match_from_MustMatchAll.
  destruct (range_MustMatchAll_spec (HTTPResponse.Body a) (MustMatchAll check))
    as [[-> _]|[-> _]]; simpl; [|done].
  unfold Match_from_MustMatchOne.
  destruct (range_MustMatchOne _ _ false); simpl; [|done].
  destruct (range_MustNotMatch_spec (HTTPResponse.Body a) (MustNotMatch check))
    as [[-> _]|[-> _]]; simpl; [|done].
  destruct (range_Headers_spec (HTTPResponse.Header a) (Headers check) Hwf)
    as [[Hhd _]|[-> _]]; [rewrite Hhd|]; simpl; [|done].
  destruct (range_NoHeaders_cases (HTTPResponse.Header a) (NoHeaders check))
    as [[-> _]|[->|(h & Hh & Hmal & ->)]]; simpl; try done.
  intros [= <- <-]. eauto 10.
Qed.

Lemma selected_none sevStr l :
  (∀ c, c ∈ concat (map Checks l) → Severity c ≠ sevStr) →
  filter (has_severity sevStr)
    (concat (map (λ plugin, map (pair plugin) (Checks plugin)) l)) = [].
Proof.
  induction l as [|p l IH]; simpl; [done|]. intros Hne.
  rewrite filter_app, IH by (intros c Hc; apply Hne, elem_of_app; by right).
  rewrite app_nil_r.
  assert (∀ c, c ∈ Checks p → Severity c ≠ sevStr) as Hp
    by (intros c Hc; apply Hne, elem_of_app; by left).
  clear -Hp. induction (Checks p) as [|c cs IHc]; simpl; [done|].
  rewrite filter_cons_False
    by (unfold has_severity; simpl; intros ->; by apply (Hp c); [left|]).
  apply IHc. intros c' Hc'. apply Hp. by right.
Qed.

(** X13: reporting a set that the loader returned under a severity string
    that is empty, or that the classifier rejects, gives a table with no
    row and a total of zero: no loaded check carries such a severity. *)
Theorem loaded_set_unknown_severity r sign sevStr :
  ParseSignatures r = (Some sign, None) →
  sevStr = "" ∨ is_Some (StringToSeverity sevStr).2 →
  selected sign sevStr = [] ∧
  PrintSignatures (Some sign) sevStr
  = Some (table.mkWriter [title_row] [] [total_row 0]).
Proof.
  intros [_ Hvalid]%ParseSignatures_ok_inv Hsev.
  assert (selected sign sevStr = []) as Hnone.
  { apply selected_none. intros c Hc.
    destruct (Hvalid c Hc) as [(_ & _ & Hs & Hlabel) _].
    destruct Hsev as [->|[err Herr]]; [done|]. intros Heq. congruence. }
  split; [done|]. unfold PrintSignatures.
  unfold selected, document_order in Hnone.
  pose proof (print_range_Plugins_spec sevStr (Plugins sign)
                (table.AppendHeader table.NewWriter title_row) 0) as Hloop.
  cbv zeta in Hloop. rewrite Hnone in Hloop. unfold title_row in Hloop.
  rewrite Hloop by (simpl; lia). done.
Qed.

End LoaderOutcomes.

(** ** The loader outcomes on concrete documents *)

Lemma ParseSignatures_reads_only_witness :
  (ParseSignatures nat exampleStringToSeverity
     (decodeEither threeChecksDocument regroupedDocument) exampleReader).2
  = (ParseSignatures nat exampleStringToSeverity
       (decodeEither threeChecksDocument regroupedDocument)
       (mkReader (bytes_of_string "other", None))).2 ∧
  (ParseSignatures nat exampleStringToSeverity
     (decodeEither threeChecksDocument regroupedDocument) exampleReader).2
  = Some (ErrInvalidHeaderFormat "X-Foo").
Proof.
  assert (deserializes (decodeEither threeChecksDocument regroupedDocument)
            exampleReader threeChecksDocument) as H1 by (by exists []).
  assert (deserializes (decodeEither threeChecksDocument regroupedDocument)
            (mkReader (bytes_of_string "other", None)) regroupedDocument) as H2
    by (by exists (bytes_of_string "other")).
  destruct (ParseSignatures_reads_only nat exampleStringToSeverity
              (decodeEither threeChecksDocument regroupedDocument)
              exampleReader (mkReader (bytes_of_string "other", None))
              threeChecksDocument regroupedDocument H1 H2 eq_refl) as [Herr _].
  split; [exact Herr | by vm_compute].
Defined.

Lemma loaded_check_Match_errors_witness :
  ParseSignatures nat exampleStringToSeverity
    (decodeAs malformedNoHeadersDocument) exampleReader
  = (Some malformedNoHeadersDocument, None) ∧
  malformedNoHeadersCheck ∈ document_checks malformedNoHeadersDocument ∧
  Match (Some malformedNoHeadersCheck) (Some (scenarioResponse scenarioBody))
  = (false, Some (ErrInvalidHeaderFormat "X-Foo")) ∧
  ((StatusCode malformedNoHeadersCheck = None ∧
    ErrInvalidHeaderFormat "X-Foo" = ErrNilParameter "check.StatusCode") ∨
   (Some (scenarioResponse scenarioBody) = None ∧
    ErrInvalidHeaderFormat "X-Foo" = ErrNilParameter "resp") ∨
   (∃ h, h ∈ NoHeaders malformedNoHeadersCheck ∧ ¬ one_separator h ∧
         ErrInvalidHeaderFormat "X-Foo" = ErrInvalidHeaderFormat h ∧
         ∃ a, Some (scenarioResponse scenarioBody) = Some a ∧
              range_Headers (HTTPResponse.Header a)
                (Headers malformedNoHeadersCheck) = Fallthrough)).
Proof.
  assert (ParseSignatures nat exampleStringToSeverity
            (decodeAs malformedNoHeadersDocument) exampleReader
          = (Some malformedNoHeadersDocument, None)) as H1 by (by vm_compute).
  assert (malformedNoHeadersCheck ∈ document_checks malformedNoHeadersDocument)
    as H2 by (by left).
  assert (Match (Some malformedNoHeadersCheck)
            (Some (scenarioResponse scenarioBody))
          = (false, Some (ErrInvalidHeaderFormat "X-Foo"))) as H3
    by (by vm_compute).
  exact (conj H1 (conj H2 (conj H3
    (loaded_check_Match_errors nat exampleStringToSeverity
       (decodeAs malformedNoHeadersDocument) exampleReader
       malformedNoHeadersDocument malformedNoHeadersCheck
       (Some (scenarioResponse scenarioBody)) false
       (ErrInvalidHeaderFormat "X-Foo") H1 H2 H3)))).
Defined.

Lemma loaded_set_unknown_severity_witness :
  ParseSignatures nat exampleStringToSeverity
    (decodeAs malformedNoHeadersDocument) exampleReader
  = (Some malformedNoHeadersDocument, None) ∧
  is_Some (exampleStringToSeverity "urgent").2 ∧
  selected malformedNoHeadersDocument "urgent" = [] ∧
  PrintSignatures (Some malformedNoHeadersDocument) "urgent"
  = Some (table.mkWriter [title_row] [] [total_row 0]).
Proof.
  assert (ParseSignatures nat exampleStringToSeverity
            (decodeAs malformedNoHeadersDocument) exampleReader
          = (Some malformedNoHeadersDocument, None)) as H1 by (by vm_compute).
  assert (is_Some (exampleStringToSeverity "urgent").2) as H2 by (by eexists).
  exact (conj H1 (conj H2
    (loaded_set_unknown_severity nat exampleStringToSeverity
       (decodeAs malformedNoHeadersDocument) exampleReader
       malformedNoHeadersDocument "urgent" H1 (or_intror H2)))).
Defined.

(** ** Every table of [PrintSignatures] *)

Section ReportingOutcomes.

Variable sevStr : string.

Lemma int_wrap_succ z : int_wrap (int_wrap z + 1) = int_wrap (z + 1).
Proof.
  unfold int_wrap.
  replace ((z + 2 ^ 63) `mod` 2 ^ 64 - 2 ^ 63 + 1 + 2 ^ 63)
    with ((z + 2 ^ 63) `mod` 2 ^ 64 + 1) by lia.
  rewrite Zplus_mod_idemp_l. do 2 f_equal. lia.
Qed.

Lemma print_range_Checks_wrap plugin l t c0 :
  let sel := filter (has_severity sevStr) (map (pair plugin) l) in
  print_range_Checks sevStr plugin l (t, int_wrap c0)
  = (table.mkWriter (table.Header t) (table.Rows t ++ map report_row sel)
       (table.Footer t),
     int_wrap (c0 + Z.of_nat (length sel))).
Proof.
  revert t c0. induction l as [|check l IH]; intros t c0 sel; subst sel.
  - simpl. rewrite app_nil_r, Z.add_0_r. by destruct t.
  - cbn [map print_range_Checks print_Checks_body].
    destruct (decide (has_severity sevStr (plugin, check))) as [Hd|Hd].
    + rewrite filter_cons_True by done.
      assert (String.eqb sevStr (Severity check) = true) as ->
        by (by apply String.eqb_eq).
      rewrite int_wrap_succ, IH.
      cbn [table.Header table.Rows table.Footer table.AppendRow length map].
      rewrite <- app_assoc. cbn [app report_row fst snd]. do 2 f_equal. lia.
    + rewrite filter_cons_False by done.
      assert (String.eqb sevStr (Severity check) = false) as ->
        by (by apply String.eqb_neq).
      by rewrite IH.
Qed.

Lemma print_range_Plugins_wrap l t c0 :
  let sel := filter (has_severity sevStr)
               (concat (map (λ plugin, map (pair plugin) (Checks plugin)) l)) in
  print_range_Plugins sevStr l (t, int_wrap c0)
  = (table.mkWriter (table.Header t) (table.Rows t ++ map report_row sel)
       (table.Footer t),
     int_wrap (c0 + Z.of_nat (length sel))).
Proof.
  revert t c0. induction l as [|plugin l IH]; intros t c0 sel; subst sel.
  - simpl. rewrite app_nil_r, Z.add_0_r. by destruct t.
  - simpl. rewrite filter_app, length_app, Nat2Z.inj_add.
    rewrite print_range_Checks_wrap, IH. simpl.
    rewrite map_app, app_assoc. do 2 f_equal. lia.
Qed.

(** X14: whatever the size of the set, the table that the reporting entry
    point renders has the one title row, one row for each check whose
    severity is the filter, in document order, and one footer row, whose
    total is the number of these rows as a 64-bit [int] holds it. *)
Theorem PrintSignatures_table (sign : Signatures) :
  PrintSignatures (Some sign) sevStr
  = Some (table.mkWriter
            [title_row]
            (map report_row (selected sign sevStr))
            [total_row (int_wrap (Z.of_nat (length (selected sign sevStr))))]).
Proof.
  unfold PrintSignatures. change 0 with (int_wrap 0) at 1.
  by rewrite print_range_Plugins_wrap.
Qed.

End ReportingOutcomes.

(** ** The error messages *)

Section ErrorMessages.

Lemma string_length_app (a b : string) :
  String.length (a +:+ b) = (String.length a + String.length b)%nat.
Proof. induction a as [|x a IH]; simpl; [done | by rewrite IH]. Qed.

Lemma string_app_cancel_l (p a b : string) : p +:+ a = p +:+ b → a = b.
Proof. induction p as [|x p IH]; simpl; [done | intros [= H]; auto]. Qed.

Lemma string_app_cancel_r (s a b : string) : a +:+ s = b +:+ s → a = b.
Proof.
  revert b. induction a as [|x a IH]; intros [|y b]; try done.
  - intros H. apply (f_equal String.length) in H.
    change (String y b +:+ s) with (String y (b +:+ s)) in H.
    cbn [String.length] in H. rewrite !string_length_app in H.
    cbn [String.length] in H. lia.
  - intros H. apply (f_equal String.length) in H.
    change (String x a +:+ s) with (String x (a +:+ s)) in H.
    cbn [String.length] in H. rewrite !string_length_app in H.
    cbn [String.length] in H. lia.
  - simpl. intros [= -> H]. f_equal. by apply IH.
Qed.

(** X15: the message of an [ErrInvalidHeaderFormat] names its header
    string without loss: two such errors with the same message carry the
    same header string. *)
Theorem ErrInvalidHeaderFormat_Error_inj (h1 h2 : string) :
  ErrInvalidHeaderFormat_Error h1 = ErrInvalidHeaderFormat_Error h2 → h1 = h2.
Proof.
  unfold ErrInvalidHeaderFormat_Error.
  intros H%string_app_cancel_l. by apply string_app_cancel_r in H.
Qed.

(** The field names the loader reports. *)
Lemma loader_fields_cases (f : string) :
  f ∈ ["description"; "remediation"; "severity"] →
  f = "description" ∨ f = "remediation" ∨ f = "severity".
Proof. rewrite !elem_of_cons, elem_of_nil. tauto. Qed.

(** X16: the message of an [ErrCheckInvalidField] tells the field and the
    name of the check apart when the field is one of the three the
    loader reports: two such errors with the same message carry the same
    field and the same check name. *)
Theorem ErrCheckInvalidField_Error_inj (c1 f1 c2 f2 : string) :
  f1 ∈ ["description"; "remediation"; "severity"] →
  f2 ∈ ["description"; "remediation"; "severity"] →
  ErrCheckInvalidField_Error c1 f1 = ErrCheckInvalidField_Error c2 f2 →
  c1 = c2 ∧ f1 = f2.
Proof.
  unfold ErrCheckInvalidField_Error.
  intros [-> | [-> | ->]]%loader_fields_cases
    [-> | [-> | ->]]%loader_fields_cases
    H%string_app_cancel_l; try discriminate H;
    (split; [|done]);
    apply string_app_cancel_l, string_app_cancel_l in H;
    by apply string_app_cancel_r in H.
Qed.

End ErrorMessages.

Lemma ErrInvalidHeaderFormat_Error_inj_witness :
  ErrInvalidHeaderFormat_Error "X-Foo"
  = "invalid header format: X-Foo should be " +:+
    String quote ("KEY:VALUE" +:+ String quote "") ∧
  "X-Foo" = "X-Foo".
Proof.
  split; [done|]. by apply ErrInvalidHeaderFormat_Error_inj.
Defined.

Lemma ErrCheckInvalidField_Error_inj_witness :
  ErrCheckInvalidField_Error "c2" "severity"
  = "missing or empty severity in c2 plugin checks." ∧
  "c2" = "c2" ∧ "severity" = "severity".
Proof.
  split; [done|].
  apply ErrCheckInvalidField_Error_inj; [| |done];
    rewrite !elem_of_cons; auto.
Defined.

(** ** How the result of [Match] moves with the check and the response *)

Section MatchFrame.

Variables Header1 Header2 : gmap string (list string).

Lemma Headers_body_frame h :
  (∀ KEY VALUE, entry h KEY VALUE → Header1 !! KEY = Header2 !! KEY) →
  Headers_body Header1 h = Headers_body Header2 h.
Proof.
  intros Hkeys. destruct (decide (one_separator h)) as [Hone|Hmal].
  - destruct (one_separator_entry h Hone) as (K & V & Hentry).
    unfold Headers_body.
    by rewrite (strings_Split_entry h K V Hone Hentry), (Hkeys K V Hentry).
  - by rewrite !Headers_body_malformed.
Qed.

Lemma NoHeaders_body_frame h :
  (∀ KEY VALUE, entry h KEY VALUE → Header1 !! KEY = Header2 !! KEY) →
  NoHeaders_body Header1 h = NoHeaders_body Header2 h.
Proof.
  intros Hkeys. destruct (decide (one_separator h)) as [Hone|Hmal].
  - destruct (one_separator_entry h Hone) as (K & V & Hentry).
    unfold NoHeaders_body.
    by rewrite (strings_Split_entry h K V Hone Hentry), (Hkeys K V Hentry).
  - by rewrite !NoHeaders_body_malformed.
Qed.

Lemma range_Headers_frame l :
  (∀ h KEY VALUE, h ∈ l → entry h KEY VALUE → Header1 !! KEY = Header2 !! KEY) →
  range_Headers Header1 l = range_Headers Header2 l.
Proof.
  induction l as [|x l IH]; intros Hkeys; simpl; [done|].
  rewrite (Headers_body_frame x), IH; [done | |].
  - intros h K V Hh. apply Hkeys. by right.
  - intros K V. apply Hkeys. by left.
Qed.

Lemma range_NoHeaders_frame l :
  (∀ h KEY VALUE, h ∈ l → entry h KEY VALUE → Header1 !! KEY = Header2 !! KEY) →
  range_NoHeaders Header1 l = range_NoHeaders Header2 l.
Proof.
  induction l as [|x l IH]; intros Hkeys; simpl; [done|].
  rewrite (NoHeaders_body_frame x), IH; [done | |].
  - intros h K V Hh. apply Hkeys. by right.
  - intros K V. apply Hkeys. by left.
Qed.

End MatchFrame.

(** X17: [Match] reads the header map of the response only at the keys
    that the entries of the check name: two responses with the same
    status code and body whose header maps agree on these keys give the
    same result, whatever other headers they carry. *)
Theorem Match_reads_named_keys (check : Check) (r1 r2 : HTTPResponse.t) :
  HTTPResponse.StatusCode r1 = HTTPResponse.StatusCode r2 →
  HTTPResponse.Body r1 = HTTPResponse.Body r2 →
  (∀ h KEY VALUE, h ∈ Headers check ∨ h ∈ NoHeaders check →
     entry h KEY VALUE →
     HTTPResponse.Header r1 !! KEY = HTTPResponse.Header r2 !! KEY) →
  Match (Some check) (Some r1) = Match (Some check) (Some r2).
Proof.
  intros Hsc Hbody Hkeys.
  unfold Match, Match_from_MustMatchAll, Match_from_MustMatchOne.
  rewrite Hsc, Hbody.
  rewrite (range_Headers_frame (HTTPResponse.Header r1) (HTTPResponse.Header r2))
    by (intros h K V Hh; apply Hkeys; by left).
  rewrite (range_NoHeaders_frame (HTTPResponse.Header r1) (HTTPResponse.Header r2))
    by (intros h K V Hh; apply Hkeys; by right).
  done.
Qed.

Lemma byte_substring_grows sub b pre post :
  byte_substring sub b → byte_substring sub (pre ++ b ++ post).
Proof.
  intros (l & r & ->). exists (pre ++ l), (r ++ post).
  by rewrite <- !app_assoc.
Qed.

(** X18: a check that forbids no string and matches a response matches
    every response with the same status code and headers whose body
    contains the body of the first: bytes added before and after a body
    never undo a match. *)
Theorem Match_body_grows (check : Check) (resp : HTTPResponse.t)
  (pre post : list byte) :
  MustNotMatch check = [] →
  Match (Some check) (Some resp) = (true, None) →
  Match (Some check)
    (Some (HTTPResponse.mk (HTTPResponse.StatusCode resp)
             (pre ++ HTTPResponse.Body resp ++ post)
             (HTTPResponse.Header resp)))
  = (true, None).
Proof.
  intros Hnot (_ & c & r & [= <-] & [= <-] & HwfH & HwfN & Hsix)%Match_true_inv.
  destruct Hsix as [Hst Hall Hone _ Hhd Hnh].
  destruct (Match_cases check
              (HTTPResponse.mk (HTTPResponse.StatusCode resp)
                 (pre ++ HTTPResponse.Body resp ++ post)
                 (HTTPResponse.Header resp))
              (HTTPResponse.StatusCode resp) Hst HwfH HwfN)
    as [[Hm _]|[_ Hno]]; [done|].
  exfalso. apply Hno. split; simpl; try done.
  - intros m Hm. by apply byte_substring_grows, Hall.
  - destruct Hone as (m & Hm & Hsub). exists m.
    split; [done | by apply byte_substring_grows].
  - intros m Hm. rewrite Hnot in Hm. by apply not_elem_of_nil in Hm.
Qed.

(** X19: strengthening a check never creates a match: when a check matches
    a response, so does every check with the same status code that asks
    for no more, that is, whose [MustMatchAll], [MustNotMatch],
    [Headers] and [NoHeaders] entries are among those of the first and
    whose [MustMatchOne] alternatives include those of the first. *)
Theorem Match_weaker_check (strong weak : Check) (resp : option HTTPResponse.t) :
  StatusCode weak = StatusCode strong →
  MustMatchAll weak ⊆ MustMatchAll strong →
  MustMatchOne strong ⊆ MustMatchOne weak →
  MustNotMatch weak ⊆ MustNotMatch strong →
  Headers weak ⊆ Headers strong →
  NoHeaders weak ⊆ NoHeaders strong →
  Match (Some strong) resp = (true, None) →
  Match (Some weak) resp = (true, None).
Proof.
  intros Hsc Hall Hone Hnot Hhd Hnh
    (_ & c & r & [= <-] & -> & HwfH & HwfN & Hsix)%Match_true_inv.
  destruct Hsix as [Hst Sall Sone Snot Shd Snh].
  assert (StatusCode weak = Some (HTTPResponse.StatusCode r)) as Hst'
    by congruence.
  destruct (Match_cases weak r (HTTPResponse.StatusCode r) Hst')
    as [[Hm _]|[_ Hno]]; [intros h Hh; by apply HwfH, Hhd
                         |intros h Hh; by apply HwfN, Hnh | done |].
  exfalso. apply Hno. split; try done.
  - intros m Hm. by apply Sall, Hall.
  - destruct Sone as (m & Hm & Hsub). exists m. split; [by apply Hone | done].
  - intros m Hm. by apply Snot, Hnot.
  - intros h Hh. by apply Shd, Hhd.
  - intros h Hh. by apply Snh, Hnh.
Qed.

Lemma Match_reads_named_keys_witness :
  Match (Some fullCheck) (Some (scenarioResponse scenarioBody))
  = Match (Some fullCheck)
      (Some (HTTPResponse.mk 200 scenarioBody
               {[ "X-Powered-By" := ["PHP/7.4"]; "Via" := ["proxy"] ]})).
Proof.
  apply Match_reads_named_keys; [done | done |].
  intros h K V [Hh|Hh] Hentry;
    repeat (apply elem_of_cons in Hh as [->|Hh]);
    try (by apply not_elem_of_nil in Hh).
  - assert (strings_Split "X-Powered-By:PHP" ":" = [K; V]) as [= <- <-]
      by (by apply strings_Split_entry). by vm_compute.
  - assert (strings_Split "Server:nginx" ":" = [K; V]) as [= <- <-]
      by (by apply strings_Split_entry). by vm_compute.
Defined.

Lemma Match_body_grows_witness :
  MustNotMatch oneOnlyCheck = [] ∧
  Match (Some oneOnlyCheck)
    (Some (HTTPResponse.mk 200 (bytes_of_string "WordPress") ∅)) = (true, None) ∧
  Match (Some oneOnlyCheck)
    (Some (HTTPResponse.mk 200
             (bytes_of_string "<p>" ++ bytes_of_string "WordPress" ++
              bytes_of_string " 5.0</p>") ∅)) = (true, None).
Proof.
  assert (Match (Some oneOnlyCheck)
            (Some (HTTPResponse.mk 200 (bytes_of_string "WordPress") ∅))
          = (true, None)) as H by (by vm_compute).
  exact (conj eq_refl (conj H
    (Match_body_grows oneOnlyCheck
       (HTTPResponse.mk 200 (bytes_of_string "WordPress") ∅)
       (bytes_of_string "<p>") (bytes_of_string " 5.0</p>") eq_refl H))).
Defined.

Lemma Match_weaker_check_witness :
  Match (Some fullCheck) (Some (scenarioResponse scenarioBody)) = (true, None) ∧
  Match (Some (mkCheck ["Drupal"; "Joomla"; "WordPress"] [] ["Drupal"] (Some 200)
                 "" "" "" "" [] ["Server:nginx"]))
        (Some (scenarioResponse scenarioBody)) = (true, None).
Proof.
  assert (Match (Some fullCheck) (Some (scenarioResponse scenarioBody))
          = (true, None)) as H by (by vm_compute).
  split; [done|].
  apply (Match_weaker_check fullCheck); try done; simpl; members.
Defined.
